(** * Verification of the LRU range-sum cache and the sliding-window rate limiter

    Shallow embedding of [task1_lru_cache.py] and [task2_rate_limiter.py].

    - Python [int] is [Z]; Python [float] is the kernel's binary64 [float].
    - An [OrderedDict] is an association list, oldest entry first.
    - A [defaultdict(list)] keyed by user id is a [gmap string (list float)].
    - Methods that mutate [self] are programs in a state-and-exception monad;
      a raised Python exception is the [Raise] outcome.
    - [time.time()] reads the next value of a clock given as a sequence. *)

From Stdlib Require Import ZArith Lia Floats.
From stdpp Require Import gmap strings list sorting.

Set Default Proof Using "Type".
Set Warnings "-inexact-float,-clear-no-such-hyp".

(** ** Exceptions and stateful programs *)

Inductive exn := KeyError | ValueError.

Inductive result (A : Type) :=
  | Ok (a : A)
  | Raise (e : exn).
Arguments Ok {A} a.
Arguments Raise {A} e.

(** A method body: runs on a state [S], and either raises or returns a value
    together with the mutated state. *)
Definition prog (S A : Type) : Type := S → result (A * S).

#[global] Instance prog_ret {S} : MRet (prog S) :=
  λ A a s, Ok (a, s).
#[global] Instance prog_bind {S} : MBind (prog S) :=
  λ A B f m s, match m s with
               | Ok (a, s') => f a s'
               | Raise e => Raise e
               end.

Definition raise {S A} (e : exn) : prog S A := λ _, Raise e.
Definition gets {S A} (f : S → A) : prog S A := λ s, Ok (f s, s).
Definition modify {S} (f : S → S) : prog S unit := λ s, Ok (tt, f s).

(** [for x in xs: body(x)] *)
Fixpoint for_each {S A} (xs : list A) (body : A → prog S unit) : prog S unit :=
  match xs with
  | [] => mret tt
  | x :: xs' => body x;; for_each xs' body
  end.

(** [[body(x) for x in xs]] *)
Fixpoint comprehension {S A B} (xs : list A) (body : A → prog S B)
    : prog S (list B) :=
  match xs with
  | [] => mret []
  | x :: xs' => y ← body x; ys ← comprehension xs' body; mret (y :: ys)
  end.

(** The value a program returns, when it returns. *)
Definition returned {S A} (r : result (A * S)) : option A :=
  match r with
  | Ok (a, _) => Some a
  | Raise _ => None
  end.

(** Runs a program from the outcome of a constructor. *)
Definition run_from {S A} (init : result S) (m : prog S A)
    : result (A * S) :=
  match init with
  | Ok s => m s
  | Raise e => Raise e
  end.

Ltac prog_unfold :=
  unfold mbind, prog_bind, mret, prog_ret, raise, gets, modify in *.

(** ** Python values stored in the cache *)

Inductive value :=
  | VNone
  | VInt (n : Z).

Definition is_not_none (v : value) : bool :=
  match v with VNone => false | VInt _ => true end.

(** ** Python list slicing and [sum] *)

(** Index normalisation of [l[start:stop]] for a list of length [n]:
    a negative index counts from the end, and both ends are clamped. *)
Definition slice_index (n i : Z) : Z :=
  if (i <? 0)%Z then Z.max 0 (i + n) else Z.min i n.

Definition py_slice {A} (l : list A) (start stop : Z) : list A :=
  let n := Z.of_nat (length l) in
  let lo := slice_index n start in
  let hi := slice_index n stop in
  take (Z.to_nat (hi - lo)) (drop (Z.to_nat lo) l).

Definition py_sum (l : list Z) : Z := foldl Z.add 0%Z l.

(** A float that is a number: it is not NaN. *)
Definition is_number (x : float) : Prop := Prim2SF x ≠ S754_nan.

(** * Task 1: the LRU cache *)

Module LRU.

Section ordered_dict.
Context {K : Type} `{EqDecision K}.

(** The entries of an [OrderedDict], least recently used first. *)
Definition odict : Type := list (K * value).

Definition keys (d : odict) : list K := d.*1.

Fixpoint od_find (key : K) (d : odict) : option value :=
  match d with
  | [] => None
  | (k, v) :: d' => if decide (k = key) then Some v else od_find key d'
  end.

Fixpoint od_remove (key : K) (d : odict) : odict :=
  match d with
  | [] => []
  | (k, v) :: d' =>
      if decide (k = key) then d' else (k, v) :: od_remove key d'
  end.

Fixpoint od_set (key : K) (v : value) (d : odict) : odict :=
  match d with
  | [] => [(key, v)]
  | (k, v') :: d' =>
      if decide (k = key) then (k, v) :: d' else (k, v') :: od_set key v d'
  end.

(** [key in d] *)
Definition od_contains (key : K) : prog odict bool :=
  gets (λ d, bool_decide (key ∈ keys d)).

(** [len(d)] *)
Definition od_len : prog odict Z :=
  gets (λ d, Z.of_nat (length d)).

(** [d[key]] *)
Definition od_getitem (key : K) : prog odict value :=
  λ d, match od_find key d with
       | Some v => Ok (v, d)
       | None => Raise KeyError
       end.

(** [d[key] = v]: an existing key keeps its position, a new one goes last. *)
Definition od_setitem (key : K) (v : value) : prog odict unit :=
  modify (od_set key v).

(** [del d[key]] *)
Definition od_delitem (key : K) : prog odict unit :=
  λ d, match od_find key d with
       | Some _ => Ok (tt, od_remove key d)
       | None => Raise KeyError
       end.

(** [d.move_to_end(key)] *)
Definition od_move_to_end (key : K) : prog odict unit :=
  λ d, match od_find key d with
       | Some v => Ok (tt, od_remove key d ++ [(key, v)])
       | None => Raise KeyError
       end.

(** [d.popitem(last=False)] *)
Definition od_popitem_first : prog odict (K * value) :=
  λ d, match d with
       | [] => Raise KeyError
       | kv :: d' => Ok (kv, d')
       end.

(** [list(d)]: the keys in iteration order. *)
Definition od_keys : prog odict (list K) := gets keys.

Record LRUCache := mkLRUCache {
  capacity : Z;
  cache : odict;
}.

(** Runs a dictionary operation on [self.cache]. *)
Definition on_cache {A} (m : prog odict A) : prog LRUCache A :=
  λ self, match m (cache self) with
          | Ok (a, d) => Ok (a, mkLRUCache (capacity self) d)
          | Raise e => Raise e
          end.

Definition LRUCache_init (capacity : Z) : result LRUCache :=
  Ok (mkLRUCache capacity []).

Definition get (key : K) : prog LRUCache value :=
  present ← on_cache (od_contains key);
  if negb present then mret VNone
  else
    on_cache (od_move_to_end key);;
    on_cache (od_getitem key).

Definition put (key : K) (v : value) : prog LRUCache unit :=
  on_cache (od_contains key) ≫= λ present : bool,
  (if present then on_cache (od_move_to_end key)
   else
     n ← on_cache od_len;
     cap ← gets capacity;
     if (cap <=? n)%Z then on_cache od_popitem_first;; mret tt
     else mret tt) ≫= λ _ : unit,
  on_cache (od_setitem key v).

Definition contains (key : K) : prog LRUCache bool :=
  on_cache (od_contains key).

Definition len : prog LRUCache Z :=
  on_cache od_len.

Definition invalidate (predicate : K → bool) : prog LRUCache unit :=
  ks ← on_cache od_keys;
  let keys_to_remove := List.filter predicate ks in
  for_each keys_to_remove (λ key, on_cache (od_delitem key)).

(** The deletion loop of [invalidate], for an arbitrary list of keys. *)
Definition delete_keys (ks : list K) : prog LRUCache unit :=
  for_each ks (λ key, on_cache (od_delitem key)).

(** A call of one of the mutating methods, and a driver that performs a
    sequence of calls and reads [len(cache)] after each one. *)
Inductive call :=
  | CallGet (key : K)
  | CallPut (key : K) (v : value)
  | CallInvalidate (predicate : K → bool).

Definition do_call (c : call) : prog LRUCache unit :=
  match c with
  | CallGet key => get key;; mret tt
  | CallPut key v => put key v
  | CallInvalidate predicate => invalidate predicate
  end.

Definition sizes_after (cs : list call) : prog LRUCache (list Z) :=
  comprehension cs (λ c, do_call c;; len).

(** A dictionary holds each key once. *)
Definition wf (self : LRUCache) : Prop := NoDup (keys (cache self)).

(** The entries that [invalidate predicate] must leave in place. *)
Definition survivors (predicate : K → bool) (d : odict) : odict :=
  List.filter (λ kv, negb (predicate kv.1)) d.

End ordered_dict.

Arguments odict K : clear implicits.
Arguments LRUCache K : clear implicits.
Arguments call K : clear implicits.

(** ** Range sums *)

Definition range_sum_no_cache (array : list Z) (L R : Z) : Z :=
  py_sum (py_slice array L (R + 1)).

Definition range_sum_with_cache (array : list Z) (L R : Z)
    : prog (LRUCache (Z * Z)) value :=
  let key := (L, R) in
  cached_result ← get key;
  if is_not_none cached_result then mret cached_result
  else
    let res := py_sum (py_slice array L (R + 1)) in
    put key (VInt res);;
    mret (VInt res).

(** [[range_sum_with_cache(array, L, R, cache) for L, R in queries]] *)
Definition results_with_cache (array : list Z) (queries : list (Z * Z))
    : prog (LRUCache (Z * Z)) (list value) :=
  comprehension queries (λ '(L, R), range_sum_with_cache array L R).

(** Every cached entry holds the sum of its range of [array]. *)
Definition coherent (array : list Z) (d : odict (Z * Z)) : Prop :=
  Forall (λ kv, kv.2 = VInt (range_sum_no_cache array kv.1.1 kv.1.2)) d.

(** [[range_sum_no_cache(array, L, R) for L, R in queries]] *)
Definition results_no_cache (array : list Z) (queries : list (Z * Z))
    : list Z :=
  map (λ '(L, R), range_sum_no_cache array L R) queries.

End LRU.

(** * Task 2: the sliding-window rate limiter *)

Module Limiter.

(** [min(l)] on floats: keeps the first element unless a later one is
    strictly smaller; raises [ValueError] on an empty list. *)
Definition py_min (l : list float) : result float :=
  match l with
  | [] => Raise ValueError
  | x :: xs => Ok (foldl (λ m y, if (y <? m)%float then y else m) x xs)
  end.

(** [max(a, b)] on floats: [b] only when it is strictly greater. *)
Definition py_max (a b : float) : float :=
  if (a <? b)%float then b else a.

Definition lift_result {S A} (r : result A) : prog S A :=
  λ s, match r with
       | Ok a => Ok (a, s)
       | Raise e => Raise e
       end.

(** ** [defaultdict(list)] *)

Abbreviation messages := (gmap string (list float)).

(** [d[user_id]]: a missing key is first bound to a new empty list. *)
Definition dd_getitem (user_id : string) : prog messages (list float) :=
  λ d, match d !! user_id with
       | Some l => Ok (l, d)
       | None => Ok ([], <[user_id := []]> d)
       end.

(** [d[user_id] = l] *)
Definition dd_setitem (user_id : string) (l : list float)
    : prog messages unit :=
  modify (λ d, <[user_id := l]> d).

Record SlidingWindowRateLimiter := mkLimiter {
  window_size : float;
  max_messages : Z;
  user_messages : messages;
}.

Definition SlidingWindowRateLimiter_init (window_size : float)
    (max_messages : Z) : result SlidingWindowRateLimiter :=
  Ok (mkLimiter window_size max_messages ∅).

(** Runs a dictionary operation on [self.user_messages]. *)
Definition on_messages {A} (m : prog messages A)
    : prog SlidingWindowRateLimiter A :=
  λ self, match m (user_messages self) with
          | Ok (a, d) =>
              Ok (a, mkLimiter (window_size self) (max_messages self) d)
          | Raise e => Raise e
          end.

Definition _clean_old_messages (user_id : string) (current_time : float)
    : prog SlidingWindowRateLimiter unit :=
  w ← gets window_size;
  let cutoff_time := (current_time - w)%float in
  l ← on_messages (dd_getitem user_id);
  on_messages
    (dd_setitem user_id
       (List.filter (λ timestamp, (cutoff_time <? timestamp)%float) l)).

(** ** The clock

    The limiter and the clock it reads: [clock n] is the value returned by
    the [n]-th call of [time.time()], and [ticks] counts the calls made. *)
Record world := mkWorld {
  clock : nat → float;
  ticks : nat;
  limiter : SlidingWindowRateLimiter;
}.

(** [time.time()] *)
Definition time_time : prog world float :=
  λ w, Ok (clock w (ticks w), mkWorld (clock w) (S (ticks w)) (limiter w)).

Definition on_self {A} (m : prog SlidingWindowRateLimiter A) : prog world A :=
  λ w, match m (limiter w) with
       | Ok (a, self) => Ok (a, mkWorld (clock w) (ticks w) self)
       | Raise e => Raise e
       end.

Definition can_send_message (user_id : string) : prog world bool :=
  current_time ← time_time;
  on_self (_clean_old_messages user_id current_time);;
  l ← on_self (on_messages (dd_getitem user_id));
  limit ← on_self (gets max_messages);
  mret (Z.of_nat (length l) <? limit)%Z.

Definition record_message (user_id : string) : prog world bool :=
  can_send_message user_id ≫= λ allowed : bool,
  if negb allowed then mret false
  else
    current_time ← time_time;
    l ← on_self (on_messages (dd_getitem user_id));
    on_self (on_messages (dd_setitem user_id (l ++ [current_time])));;
    mret true.

Definition time_until_next_allowed (user_id : string) : prog world float :=
  current_time ← time_time;
  on_self (_clean_old_messages user_id current_time);;
  l ← on_self (on_messages (dd_getitem user_id));
  limit ← on_self (gets max_messages);
  if (Z.of_nat (length l) <? limit)%Z then mret 0%float
  else
    l' ← on_self (on_messages (dd_getitem user_id));
    oldest_timestamp ← lift_result (py_min l');
    w ← on_self (gets window_size);
    let time_remaining := ((oldest_timestamp + w) - current_time)%float in
    mret (py_max 0%float time_remaining).

Definition get_message_count (user_id : string) : prog world Z :=
  current_time ← time_time;
  on_self (_clean_old_messages user_id current_time);;
  l ← on_self (on_messages (dd_getitem user_id));
  mret (Z.of_nat (length l)).

(** ** Observations and drivers used in the statements *)

(** The timestamps currently stored for a user (no pruning, no mutation). *)
Definition stored (user_id : string) (w : world) : list float :=
  default [] (user_messages (limiter w) !! user_id).

(** The timestamps of [l] strictly after [cutoff_time]. *)
Definition retained (cutoff_time : float) (l : list float) : list float :=
  List.filter (λ timestamp, (cutoff_time <? timestamp)%float) l.

(** The limiter after the pruning pass for [user_id] at time [now]. *)
Definition pruned (user_id : string) (now : float)
    (self : SlidingWindowRateLimiter) : SlidingWindowRateLimiter :=
  mkLimiter (window_size self) (max_messages self)
    (<[user_id :=
         retained (now - window_size self)%float
           (default [] (user_messages self !! user_id))]>
       (user_messages self)).

(** A clock that yields the given readings in turn, then repeats the last. *)
Definition clock_of (readings : list float) (n : nat) : float :=
  List.nth n readings (List.last readings 0%float).

(** A newly constructed limiter together with the clock it will read. *)
Definition start (clock : nat → float) (window_size : float)
    (max_messages : Z) : result world :=
  match SlidingWindowRateLimiter_init window_size max_messages with
  | Ok self => Ok (mkWorld clock 0 self)
  | Raise e => Raise e
  end.

Inductive call :=
  | CallCanSend (user_id : string)
  | CallRecord (user_id : string)
  | CallTimeUntil (user_id : string)
  | CallGetCount (user_id : string).

Definition do_call (c : call) : prog world unit :=
  match c with
  | CallCanSend u => can_send_message u;; mret tt
  | CallRecord u => record_message u;; mret tt
  | CallTimeUntil u => time_until_next_allowed u;; mret tt
  | CallGetCount u => get_message_count u;; mret tt
  end.

(** Performs the calls in order and notes, after each one, how many
    timestamps are stored for [user_id]. *)
Definition counts_after (user_id : string) (cs : list call)
    : prog world (list Z) :=
  comprehension cs
    (λ c, do_call c;; gets (λ w, Z.of_nat (length (stored user_id w)))).

End Limiter.

(** * Scripts: code that can also raise [IndexError] *)

Inductive error :=
  | Builtin (e : exn)
  | IndexError.

Inductive outcome (A : Type) :=
  | Return (a : A)
  | Throw (e : error).
Arguments Return {A} a.
Arguments Throw {A} e.

Definition script (S A : Type) : Type := S → outcome (A * S).

#[global] Instance script_ret {S} : MRet (script S) :=
  λ A a s, Return (a, s).
#[global] Instance script_bind {S} : MBind (script S) :=
  λ A B f m s, match m s with
               | Return (a, s') => f a s'
               | Throw e => Throw e
               end.

(** A method of the two classes run inside a script. *)
Definition lift {S A} (m : prog S A) : script S A :=
  λ s, match m s with
       | Ok r => Return r
       | Raise e => Throw (Builtin e)
       end.

Definition reads {S A} (f : S → A) : script S A := λ s, Return (f s, s).

(** [[body(x) for x in xs]] in a script. *)
Fixpoint collect {S A B} (xs : list A) (body : A → script S B)
    : script S (list B) :=
  match xs with
  | [] => mret []
  | x :: xs' => y ← body x; ys ← collect xs' body; mret (y :: ys)
  end.

(** [range(n)]: empty when [n] is not positive. *)
Definition py_range (n : Z) : list Z := Z.of_nat <$> seq 0 (Z.to_nat n).

(** * Task 1: updating the array behind the cache *)

Module Session.

Import LRU.

(** The position that index [idx] denotes in a list of length [n]: a negative
    index counts from the end; outside [-n .. n-1] there is none. *)
Definition list_position (n idx : Z) : option nat :=
  if (idx <? - n)%Z || (n <=? idx)%Z then None
  else if (idx <? 0)%Z then Some (Z.to_nat (idx + n))
  else Some (Z.to_nat idx).

(** [l[idx] = value] *)
Definition list_setitem (idx value : Z) : script (list Z) unit :=
  λ l, match list_position (Z.of_nat (length l)) idx with
       | Some i => Return (tt, <[i := value]> l)
       | None => Throw IndexError
       end.

(** The array and the cache that the range-sum functions share. *)
Record session := mkSession {
  array : list Z;
  lru : LRUCache (Z * Z);
}.

Definition on_array {A} (m : script (list Z) A) : script session A :=
  λ s, match m (array s) with
       | Return (a, arr) => Return (a, mkSession arr (lru s))
       | Throw e => Throw e
       end.

Definition on_lru {A} (m : script (LRUCache (Z * Z)) A) : script session A :=
  λ s, match m (lru s) with
       | Return (a, c) => Return (a, mkSession (array s) c)
       | Throw e => Throw e
       end.

Definition update_array (idx value : Z) : script session unit :=
  on_array (list_setitem idx value);;
  on_lru
    (lift (invalidate (λ key : Z * Z, (key.1 <=? idx)%Z && (idx <=? key.2)%Z))).

(** [range_sum_with_cache(array, L, R, cache)] on the shared array. *)
Definition cached_query (L R : Z) : script session value :=
  arr ← reads array;
  on_lru (lift (range_sum_with_cache arr L R)).

(** A caller's request: a range query or an update of one element. *)
Inductive request :=
  | Query (L R : Z)
  | Update (idx value : Z).

(** Serves a request through the cache; a query yields its answer. *)
Definition serve (r : request) : script session (option value) :=
  match r with
  | Query L R => v ← cached_query L R; mret (Some v)
  | Update idx value => update_array idx value;; mret None
  end.

(** Serves a request on the array alone, recomputing every sum. *)
Definition serve_direct (r : request) : script (list Z) (option value) :=
  match r with
  | Query L R => arr ← reads id; mret (Some (VInt (range_sum_no_cache arr L R)))
  | Update idx value => list_setitem idx value;; mret None
  end.

(** The requests a caller makes on an array of length [n]: queries with
    [0 <= L <= R] and updates of a position [0 <= idx < n]. *)
Definition valid_request (n : nat) (r : request) : Prop :=
  match r with
  | Query L R => (0 ≤ L ∧ L ≤ R)%Z
  | Update idx _ => (0 ≤ idx < Z.of_nat n)%Z
  end.

(** The keys a caller's queries leave in the cache. *)
Definition valid_keys (d : odict (Z * Z)) : Prop :=
  Forall (λ kv, (0 ≤ kv.1.1 ∧ kv.1.1 ≤ kv.1.2)%Z) d.

(** A session on [array] with a newly constructed cache. *)
Definition new_session (array : list Z) (capacity : Z) : outcome session :=
  match LRUCache_init capacity with
  | Ok c => Return (mkSession array c)
  | Raise e => Throw (Builtin e)
  end.

End Session.

(** Runs a script from the outcome of a constructor. *)
Definition run_script {S A} (init : outcome S) (m : script S A)
    : outcome (A * S) :=
  match init with
  | Return s => m s
  | Throw e => Throw e
  end.

(** * Task 1: the test data generator *)

Module TestData.

(** The two functions of Python's [random] module that the generator calls,
    taken as parameters: they run on a generator state [rng]. *)
Record random_module := mkRandom {
  rng : Type;
  randint : Z → Z → script rng Z;
  choice : list (Z * Z) → script rng (Z * Z);
}.

(** What the library documents about them: [randint(a, b)] returns an
    integer of [a .. b] and raises [ValueError] on an empty range;
    [choice(seq)] returns an element of [seq] and raises [IndexError] on an
    empty one. *)
Record random_laws (rnd : random_module) : Prop := mkRandomLaws {
  randint_range : ∀ a b g, (a ≤ b)%Z →
    ∃ x g', randint rnd a b g = Return (x, g') ∧ (a ≤ x ≤ b)%Z;
  randint_empty : ∀ a b g, (b < a)%Z →
    randint rnd a b g = Throw (Builtin ValueError);
  choice_member : ∀ l g, l ≠ [] →
    ∃ q g', choice rnd l g = Return (q, g') ∧ q ∈ l;
  choice_empty : ∀ g, choice rnd [] g = Throw IndexError;
}.

Definition generate_test_data (rnd : random_module)
    (array_size num_queries : Z)
    : script (rng rnd) (list Z * list (Z * Z)) :=
  array ← collect (py_range array_size) (λ _, randint rnd 1 1000);
  let unique_query_count := Z.min 1000 (num_queries `div` 10) in
  unique_queries ←
    collect (py_range unique_query_count)
      (λ _, a ← randint rnd 0 (array_size - 1);
            b ← randint rnd 0 (array_size - 1);
            mret (Z.min a b, Z.max a b));
  queries ← collect (py_range num_queries) (λ _, choice rnd unique_queries);
  mret (array, queries).

(** A random source that replays a list of draws (0 once exhausted),
    reducing each draw into the requested range. *)
Definition replay_randint (a b : Z) : script (list nat) Z :=
  λ g, if (b <? a)%Z then Throw (Builtin ValueError)
       else Return ((a + Z.of_nat (hd 0%nat g) `mod` (b - a + 1))%Z, tl g).

Definition replay_choice (l : list (Z * Z)) : script (list nat) (Z * Z) :=
  λ g, match l with
       | [] => Throw IndexError
       | q :: _ => Return (nth (hd 0%nat g `mod` length l)%nat l q, tl g)
       end.

Definition replay : random_module :=
  mkRandom (list nat) replay_randint replay_choice.

End TestData.

(** * Task 2: users and clocks *)

(** The user a call is about. *)
Definition user_of (c : Limiter.call) : string :=
  match c with
  | Limiter.CallCanSend u | Limiter.CallRecord u
  | Limiter.CallTimeUntil u | Limiter.CallGetCount u => u
  end.

(** A clock that never runs backward. *)
Definition monotone (clock : nat → float) : Prop :=
  ∀ n, (clock n <=? clock (S n))%float = true.

(** Timestamps in non-decreasing order. *)
Definition chronological (l : list float) : Prop :=
  StronglySorted (λ a b, (a <=? b)%float = true) l.

(** * Facts about the ordered dictionary *)

Import LRU.

Section odict_facts.
Context {K : Type} `{EqDecision K}.
Implicit Types (d : odict K) (key k : K) (v : value).

Lemma od_find_None key d : od_find key d = None ↔ key ∉ keys d.
Proof.
  unfold keys. induction d as [|[k v] d IH]; simpl.
  - split; [intros _; apply not_elem_of_nil | done].
  - rewrite not_elem_of_cons. destruct (decide (k = key)) as [->|Hne].
    + split; [done | intros [? _]; done].
    + rewrite IH. naive_solver.
Qed.

Lemma od_find_Some key d v : od_find key d = Some v → (key, v) ∈ d.
Proof.
  induction d as [|[k v'] d IH]; simpl; [done|].
  destruct (decide (k = key)) as [->|Hne].
  - intros [= ->]. apply elem_of_cons; by left.
  - intros Hf. apply elem_of_cons; right; auto.
Qed.

Lemma od_find_elem key d v : NoDup (keys d) → (key, v) ∈ d → od_find key d = Some v.
Proof.
  unfold keys. induction d as [|[k v'] d IH]; simpl.
  - intros _ Hin. by apply elem_of_nil in Hin.
  - rewrite NoDup_cons. intros [Hk Hnd] Hin.
    apply elem_of_cons in Hin as [[= -> ->]|Hin].
    + by rewrite decide_True.
    + rewrite decide_False; [auto|].
      intros ->. apply Hk. apply list_elem_of_fmap. by exists (key, v).
Qed.

Lemma od_find_is_Some key d : key ∈ keys d → is_Some (od_find key d).
Proof.
  intros Hin. destruct (od_find key d) eqn:E; [by eexists|].
  by apply od_find_None in E.
Qed.

Lemma od_find_snoc key d v : key ∉ keys d → od_find key (d ++ [(key, v)]) = Some v.
Proof.
  unfold keys. induction d as [|[k v'] d IH]; simpl.
  - intros _. by rewrite decide_True.
  - rewrite not_elem_of_cons. intros [Hne Hk].
    rewrite decide_False; [auto | congruence].
Qed.

Lemma od_remove_keys key k d :
  k ∈ keys (od_remove key d) → k ∈ keys d.
Proof.
  unfold keys. induction d as [|[k' v] d IH]; simpl; [done|].
  destruct (decide (k' = key)); simpl; rewrite !elem_of_cons; naive_solver.
Qed.

Lemma od_remove_keys_ne key k d :
  k ≠ key → k ∈ keys d → k ∈ keys (od_remove key d).
Proof.
  unfold keys. intros Hne. induction d as [|[k' v] d IH]; simpl; [done|].
  destruct (decide (k' = key)); simpl; rewrite !elem_of_cons; naive_solver.
Qed.

Lemma od_remove_NoDup key d : NoDup (keys d) → NoDup (keys (od_remove key d)).
Proof.
  unfold keys. induction d as [|[k v] d IH]; simpl; [done|].
  rewrite NoDup_cons. intros [Hk Hnd].
  destruct (decide (k = key)); simpl; [done|].
  apply NoDup_cons. split; [|auto].
  intros Hin. apply Hk. by eapply od_remove_keys.
Qed.

Lemma od_remove_gone key d : NoDup (keys d) → key ∉ keys (od_remove key d).
Proof.
  unfold keys. induction d as [|[k v] d IH]; simpl.
  - intros _. apply not_elem_of_nil.
  - rewrite NoDup_cons. intros [Hk Hnd].
    destruct (decide (k = key)) as [->|Hne]; simpl; [done|].
    apply not_elem_of_cons. split; [congruence | auto].
Qed.

Lemma od_remove_length key d :
  key ∈ keys d → S (length (od_remove key d)) = length d.
Proof.
  unfold keys. induction d as [|[k v] d IH]; simpl.
  - intros Hin. by apply elem_of_nil in Hin.
  - destruct (decide (k = key)) as [->|Hne]; simpl; [done|].
    rewrite elem_of_cons. intros [?|Hin]; [congruence|]. by rewrite IH.
Qed.

Lemma od_remove_absent key d : key ∉ keys d → od_remove key d = d.
Proof.
  unfold keys. induction d as [|[k v] d IH]; simpl; [done|].
  rewrite not_elem_of_cons. intros [Hne Hk].
  rewrite decide_False; [|congruence]. by rewrite IH.
Qed.

(** With distinct keys, removing a key keeps exactly the other entries,
    in their order. *)
Lemma od_remove_filter key d :
  NoDup (keys d) →
  od_remove key d = List.filter (λ kv, negb (bool_decide (kv.1 = key))) d.
Proof.
  unfold keys. induction d as [|[k v] d IH]; simpl; [done|].
  rewrite NoDup_cons. intros [Hk Hnd].
  destruct (decide (k = key)) as [->|Hne].
  - rewrite bool_decide_eq_true_2; [simpl | done].
    rewrite <- IH by done. symmetry. by apply od_remove_absent.
  - rewrite bool_decide_eq_false_2; [simpl | done]. by rewrite IH.
Qed.

Lemma od_set_absent key v d : key ∉ keys d → od_set key v d = d ++ [(key, v)].
Proof.
  unfold keys. induction d as [|[k v'] d IH]; simpl; [done|].
  rewrite not_elem_of_cons. intros [Hne Hk].
  rewrite decide_False; [|congruence]. by rewrite IH.
Qed.

Lemma od_set_last key v v' d :
  key ∉ keys d → od_set key v (d ++ [(key, v')]) = d ++ [(key, v)].
Proof.
  unfold keys. induction d as [|[k v''] d IH]; simpl.
  - intros _. by rewrite decide_True.
  - rewrite not_elem_of_cons. intros [Hne Hk].
    rewrite decide_False; [|congruence]. by rewrite IH.
Qed.

Lemma od_remove_snoc key v d :
  key ∉ keys d → od_remove key (d ++ [(key, v)]) = d.
Proof.
  unfold keys. induction d as [|[k v'] d IH]; simpl.
  - intros _. by rewrite decide_True.
  - rewrite not_elem_of_cons. intros [Hne Hk].
    rewrite decide_False; [|congruence]. by rewrite IH.
Qed.

Lemma keys_snoc d key v : keys (d ++ [(key, v)]) = keys d ++ [key].
Proof. unfold keys. by rewrite fmap_app. Qed.

Lemma NoDup_keys_snoc d key v :
  NoDup (keys d) → key ∉ keys d → NoDup (keys (d ++ [(key, v)])).
Proof.
  intros Hnd Hk. rewrite keys_snoc. apply NoDup_app.
  split; [done|]. split; [|apply NoDup_singleton].
  intros x Hx Hx'. apply list_elem_of_singleton in Hx'. by subst.
Qed.

End odict_facts.

(** * Facts about the cache methods *)

Section lru_facts.
Context {K : Type} `{EqDecision K}.
Implicit Types (self : LRUCache K) (key k : K) (v : value).

Ltac lru_unfold :=
  unfold get, put, contains, len, invalidate, delete_keys, on_cache,
    od_contains, od_len, od_getitem, od_setitem, od_delitem,
    od_move_to_end, od_popitem_first, od_keys in *;
  prog_unfold; simpl in *.

Lemma get_spec key self :
  wf self →
  get key self =
    Ok (match od_find key (cache self) with
        | Some v =>
            (v, mkLRUCache (capacity self)
                  (od_remove key (cache self) ++ [(key, v)]))
        | None => (VNone, self)
        end).
Proof.
  intros Hwf. destruct self as [cap d]. unfold wf in Hwf. lru_unfold.
  destruct (od_find key d) as [v|] eqn:E.
  - rewrite bool_decide_eq_true_2; simpl.
    + rewrite E. simpl. rewrite od_find_snoc; [done|]. by apply od_remove_gone.
    + apply od_find_Some in E. apply list_elem_of_fmap. by exists (key, v).
  - rewrite bool_decide_eq_false_2; [done|]. by apply od_find_None.
Qed.

Lemma put_spec key v self :
  wf self →
  put key v self =
    if bool_decide (key ∈ keys (cache self)) then
      Ok (tt, mkLRUCache (capacity self)
                (od_remove key (cache self) ++ [(key, v)]))
    else if (capacity self <=? Z.of_nat (length (cache self)))%Z then
      match cache self with
      | [] => Raise KeyError
      | _ :: d' => Ok (tt, mkLRUCache (capacity self) (d' ++ [(key, v)]))
      end
    else Ok (tt, mkLRUCache (capacity self) (cache self ++ [(key, v)])).
Proof.
  intros Hwf. destruct self as [cap d]. unfold wf in Hwf. lru_unfold.
  case_bool_decide as Hin; simpl.
  - destruct (od_find_is_Some key d Hin) as [v' ->]. simpl.
    rewrite od_set_last; [done|]. by apply od_remove_gone.
  - destruct (cap <=? Z.of_nat (length d))%Z; simpl.
    + destruct d as [|[k0 v0] d']; [done|]. simpl.
      rewrite od_set_absent; [done|].
      intros Hk. apply Hin. unfold keys. simpl. apply elem_of_cons. by right.
    + by rewrite od_set_absent.
Qed.

Lemma len_spec self :
  len self = Ok (Z.of_nat (length (cache self)), self).
Proof. destruct self. by lru_unfold. Qed.

Lemma contains_spec key self :
  contains key self = Ok (bool_decide (key ∈ keys (cache self)), self).
Proof. destruct self. by lru_unfold. Qed.

End lru_facts.

(** * Facts about [invalidate] *)

Section invalidate_facts.
Context {K : Type} `{EqDecision K}.
Implicit Types (self : LRUCache K) (d : odict K) (key k : K) (ks : list K).

Lemma filter_twice {A} (f g : A → bool) (l : list A) :
  List.filter f (List.filter g l) = List.filter (λ x, g x && f x) l.
Proof.
  induction l as [|x l IH]; simpl; [done|].
  destruct (g x); simpl; [destruct (f x)|]; by rewrite IH.
Qed.

Lemma filter_sublist {A} (f : A → bool) (l : list A) :
  List.filter f l `sublist_of` l.
Proof.
  induction l as [|x l IH]; simpl; [constructor|].
  destruct (f x); by constructor.
Qed.

Lemma keys_filter_NoDup (f : K * value → bool) d :
  NoDup (keys d) → NoDup (keys (List.filter f d)).
Proof.
  intros Hnd. eapply sublist_NoDup; [exact Hnd|].
  unfold keys. apply fmap_sublist, filter_sublist.
Qed.

(** Deleting a list of distinct, present keys never raises, and leaves the
    entries whose key is not in the list. *)
Lemma delete_keys_spec ks : ∀ self,
  wf self → NoDup ks → (∀ k, k ∈ ks → k ∈ keys (cache self)) →
  delete_keys ks self =
    Ok (tt, mkLRUCache (capacity self)
              (List.filter (λ kv, negb (bool_decide (kv.1 ∈ ks)))
                 (cache self))).
Proof.
  induction ks as [|k ks IH]; intros [cap d] Hwf Hnd Hin; unfold wf in *;
    simpl in *.
  - unfold delete_keys. simpl. unfold mret, prog_ret. do 3 f_equal.
    transitivity (List.filter (λ _, true) d); [by rewrite filter_true|].
    apply filter_ext. intros kv. cbn beta.
    by rewrite ?bool_decide_eq_false_2 by apply not_elem_of_nil.
  - apply NoDup_cons in Hnd as [Hk Hnd].
    unfold delete_keys in *. simpl.
    unfold mbind at 1, prog_bind at 1, on_cache at 1, od_delitem at 1. simpl.
    destruct (od_find_is_Some k d) as [v ->].
    { apply Hin, elem_of_cons. by left. }
    rewrite IH; simpl.
    + rewrite od_remove_filter by done. rewrite filter_twice.
      do 3 f_equal. apply filter_ext. intros [k' v']. simpl.
      repeat case_bool_decide; simpl; try done.
      all: exfalso; rewrite elem_of_cons in *; naive_solver.
    + by apply od_remove_NoDup.
    + done.
    + intros k' Hk'. apply od_remove_keys_ne.
      * intros ->. done.
      * apply Hin, elem_of_cons. by right.
Qed.

(** The deletion loop reaches the same cache whatever the order in which
    the matching keys are visited. *)
Lemma delete_keys_any_order (predicate : K → bool) ks self :
  wf self →
  ks ≡ₚ List.filter predicate (keys (cache self)) →
  delete_keys ks self =
    Ok (tt, mkLRUCache (capacity self) (survivors predicate (cache self))).
Proof.
  intros Hwf Hperm.
  assert (Hmem : ∀ k, k ∈ ks ↔ k ∈ keys (cache self) ∧ predicate k = true).
  { intros k. rewrite Hperm. rewrite list_elem_of_In, filter_In.
    by rewrite <- list_elem_of_In. }
  rewrite delete_keys_spec; [|done| |].
  - do 3 f_equal. unfold survivors. apply filter_ext_in.
    intros [k v] Hkv. simpl. f_equal.
    apply list_elem_of_In in Hkv.
    assert (k ∈ keys (cache self)).
    { apply list_elem_of_fmap. by exists (k, v). }
    case_bool_decide as Hk.
    + symmetry. by apply Hmem.
    + destruct (predicate k) eqn:E; [|done]. exfalso. apply Hk, Hmem. done.
  - rewrite Hperm. eapply sublist_NoDup; [exact Hwf | apply filter_sublist].
  - intros k Hk. by apply Hmem.
Qed.

Lemma invalidate_spec (predicate : K → bool) self :
  wf self →
  invalidate predicate self =
    Ok (tt, mkLRUCache (capacity self) (survivors predicate (cache self))).
Proof.
  intros Hwf.
  rewrite <- (delete_keys_any_order predicate
                (List.filter predicate (keys (cache self)))) by done.
  by destruct self.
Qed.

End invalidate_facts.

(** * The cache stays well formed and within its capacity *)

Section lru_invariants.
Context {K : Type} `{EqDecision K}.
Implicit Types (self : LRUCache K) (d : odict K) (key k : K) (v : value).

Lemma od_remove_elem key d (kv : K * value) :
  kv ∈ od_remove key d → kv ∈ d.
Proof.
  induction d as [|[k v] d IH]; simpl; [done|].
  destruct (decide (k = key)); rewrite !elem_of_cons; naive_solver.
Qed.

Lemma moved_wf key v d :
  NoDup (keys d) → NoDup (keys (od_remove key d ++ [(key, v)])).
Proof.
  intros Hnd. apply NoDup_keys_snoc.
  - by apply od_remove_NoDup.
  - by apply od_remove_gone.
Qed.

Lemma moved_length key v d :
  key ∈ keys d → length (od_remove key d ++ [(key, v)]) = length d.
Proof.
  intros Hin. rewrite length_app. simpl.
  rewrite <- (od_remove_length key d Hin). lia.
Qed.

(** [get] never raises; it keeps the capacity, the size and the
    well-formedness of the cache. *)
Lemma get_ok key self :
  wf self →
  ∃ v self', get key self = Ok (v, self')
    ∧ capacity self' = capacity self
    ∧ wf self'
    ∧ length (cache self') = length (cache self).
Proof.
  intros Hwf. rewrite get_spec by done.
  destruct (od_find key (cache self)) as [v|] eqn:E.
  - eexists _, _. split; [done|]. unfold wf. simpl.
    split; [done|]. split; [by apply moved_wf|].
    apply moved_length. apply od_find_Some in E.
    apply list_elem_of_fmap. by exists (key, v).
  - by eexists _, _.
Qed.

(** With a positive capacity [put] never raises, and a cache within its
    capacity stays within it. *)
Lemma put_ok key v self :
  wf self → (1 ≤ capacity self)%Z →
  ∃ self', put key v self = Ok (tt, self')
    ∧ capacity self' = capacity self
    ∧ wf self'
    ∧ key ∈ keys (cache self')
    ∧ ((Z.of_nat (length (cache self)) ≤ capacity self)%Z →
       (Z.of_nat (length (cache self')) ≤ capacity self)%Z).
Proof.
  intros Hwf Hcap. rewrite put_spec by done. unfold wf in *.
  assert (Hlast : ∀ d', key ∈ keys (d' ++ [(key, v)])).
  { intros d'. rewrite keys_snoc. apply elem_of_app. right.
    by apply list_elem_of_singleton. }
  case_bool_decide as Hin.
  - eexists. split; [done|]. simpl. split; [done|].
    split; [by apply moved_wf|]. split; [done|].
    by rewrite moved_length.
  - destruct (Z.leb_spec (capacity self) (Z.of_nat (length (cache self))))
      as [Hfull|Hroom].
    + destruct (cache self) as [|[k0 v0] d'] eqn:Ed; simpl in *; [lia|].
      eexists. split; [done|]. simpl. split; [done|].
      unfold keys in Hwf, Hin. simpl in Hwf, Hin.
      apply NoDup_cons in Hwf as [_ Hnd].
      apply not_elem_of_cons in Hin as [_ Hin].
      split; [by apply NoDup_keys_snoc|]. split; [done|].
      rewrite length_app. simpl. lia.
    + eexists. split; [done|]. simpl. split; [done|].
      split; [by apply NoDup_keys_snoc|]. split; [done|].
      rewrite length_app. simpl. lia.
Qed.

Lemma invalidate_ok (predicate : K → bool) self :
  wf self →
  ∃ self', invalidate predicate self = Ok (tt, self')
    ∧ capacity self' = capacity self
    ∧ wf self'
    ∧ length (cache self') ≤ length (cache self).
Proof.
  intros Hwf. rewrite invalidate_spec by done.
  eexists. split; [done|]. simpl. split; [done|].
  split; [by apply keys_filter_NoDup|].
  apply sublist_length, filter_sublist.
Qed.

Lemma do_call_ok (c : call K) self :
  wf self → (1 ≤ capacity self)%Z →
  (Z.of_nat (length (cache self)) ≤ capacity self)%Z →
  ∃ self', do_call c self = Ok (tt, self')
    ∧ capacity self' = capacity self
    ∧ wf self'
    ∧ (Z.of_nat (length (cache self')) ≤ capacity self')%Z.
Proof.
  intros Hwf Hcap Hlen. destruct c as [key|key v|predicate]; simpl.
  - destruct (get_ok key self Hwf) as (v & self' & Hget & Hc & Hwf' & Hl).
    exists self'. unfold mbind, prog_bind. rewrite Hget.
    split; [done|]. split; [done|]. split; [done|]. rewrite Hc, Hl. done.
  - destruct (put_ok key v self Hwf Hcap) as (self' & Hput & Hc & Hwf' & _ & Hl).
    exists self'. rewrite Hc. auto.
  - destruct (invalidate_ok predicate self Hwf)
      as (self' & Hinv & Hc & Hwf' & Hl).
    exists self'. rewrite Hc. split; [done|]. split; [done|].
    split; [done|]. lia.
Qed.

Lemma sizes_after_ok (cs : list (call K)) : ∀ self,
  wf self → (1 ≤ capacity self)%Z →
  (Z.of_nat (length (cache self)) ≤ capacity self)%Z →
  ∃ sizes self', sizes_after cs self = Ok (sizes, self')
    ∧ length sizes = length cs
    ∧ Forall (λ n, (0 ≤ n ≤ capacity self)%Z) sizes.
Proof.
  unfold sizes_after.
  induction cs as [|c cs IH]; intros self Hwf Hcap Hlen; simpl.
  - by exists [], self.
  - destruct (do_call_ok c self Hwf Hcap Hlen)
      as (self1 & Hcall & Hc & Hwf1 & Hlen1).
    destruct (IH self1 Hwf1) as (sizes & self' & Hrun & Hn & Hall);
      [lia | done |].
    exists (Z.of_nat (length (cache self1)) :: sizes), self'.
    unfold mbind, prog_bind in *. rewrite Hcall, len_spec, Hrun.
    split; [done|]. split; [simpl; lia|].
    constructor; [lia|]. by rewrite <- Hc.
Qed.

(** Whatever the capacity, a call that returns leaves distinct keys. *)
Lemma do_call_wf (c : call K) self self' :
  wf self → do_call c self = Ok (tt, self') → wf self'.
Proof.
  intros Hwf. destruct c as [key|key v|predicate]; simpl.
  - destruct (get_ok key self Hwf) as (v & self1 & Hget & _ & Hwf1 & _).
    unfold mbind, prog_bind. rewrite Hget. by intros [= <-].
  - rewrite put_spec by done. unfold wf in *.
    case_bool_decide as Hin.
    + intros [= <-]. simpl. by apply moved_wf.
    + destruct (capacity self <=? Z.of_nat (length (cache self)))%Z.
      * destruct (cache self) as [|[k0 v0] d'] eqn:Ed; [done|].
        intros [= <-]. simpl. unfold keys in Hwf, Hin. simpl in Hwf, Hin.
        apply NoDup_cons in Hwf as [_ Hnd].
        apply not_elem_of_cons in Hin as [_ Hin].
        by apply NoDup_keys_snoc.
      * intros [= <-]. simpl. by apply NoDup_keys_snoc.
  - destruct (invalidate_ok predicate self Hwf)
      as (self1 & Hinv & _ & Hwf1 & _).
    rewrite Hinv. by intros [= <-].
Qed.

Lemma calls_wf (cs : list (call K)) : ∀ self self',
  wf self → for_each cs do_call self = Ok (tt, self') → wf self'.
Proof.
  induction cs as [|c cs IH]; intros self self' Hwf; simpl.
  - by intros [= <-].
  - unfold mbind, prog_bind.
    destruct (do_call c self) as [[[] self1]|e] eqn:E; [|done].
    apply IH. by eapply do_call_wf.
Qed.

(** Every cache reached from a newly constructed one holds distinct keys. *)
Lemma reachable_wf (capacity : Z) (cs : list (call K)) self :
  run_from (LRUCache_init capacity) (for_each cs do_call) = Ok (tt, self) →
  wf self.
Proof.
  simpl. apply calls_wf. unfold wf. simpl. constructor.
Qed.

(** On a newly constructed cache of capacity at most 0, the first [put]
    raises [KeyError]: [popitem] is called on an empty dictionary. *)
Lemma put_degenerate (capacity : Z) key v :
  (capacity ≤ 0)%Z →
  run_from (LRUCache_init capacity) (put key v) = Raise KeyError.
Proof.
  intros Hcap. simpl. rewrite put_spec by (unfold wf; simpl; constructor).
  simpl. change (Z.of_nat 0) with 0%Z.
  destruct (Z.leb_spec capacity 0); [done | lia].
Qed.

End lru_invariants.

(** * Properties of the LRU cache *)

(** C3. For a cache constructed with a capacity of at least 1 and any
    sequence of [get] / [put] / [invalidate] calls, every call returns and
    the number of stored entries read after each call is at most the
    capacity. *)
Theorem capacity_invariant {K : Type} `{EqDecision K}
    (capacity : Z) (cs : list (call K)) :
  (1 ≤ capacity)%Z →
  ∃ sizes self',
    run_from (LRUCache_init capacity) (sizes_after cs) = Ok (sizes, self')
    ∧ length sizes = length cs
    ∧ Forall (λ n, (0 ≤ n ≤ capacity)%Z) sizes.
Proof.
  intros Hcap. simpl.
  apply (sizes_after_ok cs (mkLRUCache capacity [])); simpl.
  - unfold wf. simpl. constructor.
  - done.
  - lia.
Qed.

Lemma capacity_invariant_witness :
  ∃ sizes self',
    run_from (LRUCache_init 2)
      (sizes_after [CallPut 1%Z (VInt 10); CallPut 2%Z (VInt 20);
                    CallGet 1%Z; CallPut 3%Z VNone;
                    CallInvalidate (λ k, (k <? 2)%Z); CallGet 7%Z])
      = Ok (sizes, self')
    ∧ length sizes = 6
    ∧ Forall (λ n, (0 ≤ n ≤ 2)%Z) sizes.
Proof.
  apply (capacity_invariant 2). lia.
Defined.

(** C4. With capacity 2, after [put(A)], [put(B)], [get(A)], [put(C)] the
    key B is absent and A and C are present. In general: a [put] of a new key
    into a full cache with least recently used entry [k0] drops exactly that
    entry and appends the new one; a [get] that hits returns the value and
    moves the entry to the most recent position; a [put] of a present key
    replaces its value, moves it to the most recent position and keeps the
    set of keys. *)
Theorem lru_order :
  returned
    (run_from (LRUCache_init 2)
       (put "A"%string (VInt 1);; put "B"%string (VInt 2);;
        get "A"%string;; put "C"%string (VInt 3);;
        a ← contains "A"%string; b ← contains "B"%string;
        c ← contains "C"%string; mret (a, b, c)))
    = Some (true, false, true)
  ∧ (∀ (K : Type) (dec : EqDecision K) (self : LRUCache K) key v k0 v0 rest,
       wf self →
       cache self = (k0, v0) :: rest →
       (capacity self ≤ Z.of_nat (length (cache self)))%Z →
       key ∉ keys (cache self) →
       put key v self
         = Ok (tt, mkLRUCache (capacity self) (rest ++ [(key, v)]))
       ∧ k0 ∉ keys (rest ++ [(key, v)]))
  ∧ (∀ (K : Type) (dec : EqDecision K) (self : LRUCache K) key v,
       wf self →
       od_find key (cache self) = Some v →
       get key self
         = Ok (v, mkLRUCache (capacity self)
                    (od_remove key (cache self) ++ [(key, v)])))
  ∧ (∀ (K : Type) (dec : EqDecision K) (self : LRUCache K) key v,
       wf self →
       key ∈ keys (cache self) →
       put key v self
         = Ok (tt, mkLRUCache (capacity self)
                     (od_remove key (cache self) ++ [(key, v)]))
       ∧ keys (od_remove key (cache self) ++ [(key, v)])
           ≡ₚ keys (cache self)).
Proof.
  split; [by vm_compute|]. split; [|split].
  - intros K dec self key v k0 v0 rest Hwf Hd Hfull Hnew.
    rewrite put_spec by done.
    rewrite bool_decide_eq_false_2 by done.
    destruct (Z.leb_spec (capacity self) (Z.of_nat (length (cache self))));
      [|lia].
    unfold wf in Hwf. rewrite Hd in *. split; [done|].
    unfold keys in *. simpl in *.
    apply NoDup_cons in Hwf as [Hk0 _].
    apply not_elem_of_cons in Hnew as [Hne _].
    rewrite fmap_app. simpl. apply not_elem_of_app. split; [done|].
    intros Hin. apply list_elem_of_singleton in Hin. congruence.
  - intros K dec self key v Hwf Hfind. rewrite get_spec by done.
    by rewrite Hfind.
  - intros K dec self key v Hwf Hin. rewrite put_spec by done.
    rewrite bool_decide_eq_true_2 by done. split; [done|].
    unfold wf in Hwf. apply NoDup_Permutation.
    + by apply moved_wf.
    + done.
    + intros k. rewrite keys_snoc, elem_of_app, list_elem_of_singleton.
      split.
      * intros [Hk| ->]; [by eapply od_remove_keys | done].
      * intros Hk. destruct (decide (k = key)) as [->|Hne]; [by right|].
        left. by apply od_remove_keys_ne.
Qed.

Lemma lru_order_witness :
  put 3%Z (VInt 30) (mkLRUCache 2 [(1%Z, VInt 10); (2%Z, VInt 20)])
    = Ok (tt, mkLRUCache 2 [(2%Z, VInt 20); (3%Z, VInt 30)])
  ∧ get 1%Z (mkLRUCache 2 [(1%Z, VInt 10); (2%Z, VInt 20)])
    = Ok (VInt 10, mkLRUCache 2 [(2%Z, VInt 20); (1%Z, VInt 10)])
  ∧ put 1%Z (VInt 11) (mkLRUCache 2 [(1%Z, VInt 10); (2%Z, VInt 20)])
    = Ok (tt, mkLRUCache 2 [(2%Z, VInt 20); (1%Z, VInt 11)]).
Proof.
  destruct lru_order as (_ & Hnew & Hget & Hput).
  split; [|split].
  - refine (proj1 (Hnew Z _ (mkLRUCache 2 [(1%Z, VInt 10); (2%Z, VInt 20)])
                     3%Z (VInt 30) 1%Z (VInt 10) [(2%Z, VInt 20)] _ _ _ _)).
    + unfold wf, keys. simpl. compute_done.
    + reflexivity.
    + simpl. lia.
    + unfold keys. simpl. compute_done.
  - refine (Hget Z _ (mkLRUCache 2 [(1%Z, VInt 10); (2%Z, VInt 20)])
              1%Z (VInt 10) _ _).
    + unfold wf, keys. simpl. compute_done.
    + reflexivity.
  - refine (proj1 (Hput Z _ (mkLRUCache 2 [(1%Z, VInt 10); (2%Z, VInt 20)])
                     1%Z (VInt 11) _ _)).
    + unfold wf, keys. simpl. compute_done.
    + unfold keys. simpl. compute_done.
Defined.

(** C5. On a cache whose keys are distinct, [invalidate predicate] returns
    and leaves exactly the entries whose key does not satisfy the predicate,
    with their values and in their previous relative order: every present key
    satisfying the predicate is gone, every other entry is kept, and visiting
    the matching keys in any other order reaches the same cache. *)
Theorem invalidate_correct {K : Type} `{EqDecision K}
    (predicate : K → bool) (self : LRUCache K) :
  wf self →
  invalidate predicate self
    = Ok (tt, mkLRUCache (capacity self) (survivors predicate (cache self)))
  ∧ (∀ k, k ∈ keys (cache self) → predicate k = true →
          k ∉ keys (survivors predicate (cache self)))
  ∧ (∀ k v, predicate k = false →
          ((k, v) ∈ survivors predicate (cache self) ↔ (k, v) ∈ cache self))
  ∧ (∀ k v, predicate k = false →
          od_find k (cache self) = Some v →
          od_find k (survivors predicate (cache self)) = Some v)
  ∧ survivors predicate (cache self) `sublist_of` cache self
  ∧ (∀ ks, ks ≡ₚ List.filter predicate (keys (cache self)) →
          delete_keys ks self = invalidate predicate self).
Proof.
  intros Hwf.
  assert (Hmem : ∀ kv, kv ∈ survivors predicate (cache self)
                       ↔ kv ∈ cache self ∧ predicate kv.1 = false).
  { intros kv. unfold survivors. rewrite !list_elem_of_In, filter_In.
    by rewrite negb_true_iff. }
  split; [by apply invalidate_spec|].
  split; [|split; [|split; [|split]]].
  - intros k Hk Hp Hin. unfold keys in Hin.
    apply list_elem_of_fmap in Hin as (kv & -> & Hkv).
    apply Hmem in Hkv as [_ Hkv]. congruence.
  - intros k v Hp. rewrite Hmem. simpl. naive_solver.
  - intros k v Hp Hfind. apply od_find_elem.
    + by apply keys_filter_NoDup.
    + apply Hmem. split; [by apply od_find_Some | done].
  - apply filter_sublist.
  - intros ks Hperm. rewrite invalidate_spec by done.
    by apply delete_keys_any_order.
Qed.

Lemma invalidate_correct_witness :
  invalidate (λ key : Z * Z, (key.1 <=? 2)%Z && (2 <=? key.2)%Z)
    (mkLRUCache 5
       [((0, 2), VInt 6); ((3, 4), VInt 9); ((1, 3), VInt 9);
        ((0, 1), VInt 3)]%Z)
  = Ok (tt, mkLRUCache 5 [((3, 4), VInt 9); ((0, 1), VInt 3)]%Z).
Proof.
  refine (proj1 (invalidate_correct
                   (λ key : Z * Z, (key.1 <=? 2)%Z && (2 <=? key.2)%Z)
                   (mkLRUCache 5
                      [((0, 2), VInt 6); ((3, 4), VInt 9); ((1, 3), VInt 9);
                       ((0, 1), VInt 3)]%Z) _)).
  unfold wf, keys. simpl. compute_done.
Defined.

(** C10. A stored [None] cannot be told from absence through [get]: after
    [put(k, None)] the key is present and counted by [len], yet [get(k)]
    returns [None], as it does for an absent key; and on a cached [None]
    [range_sum_with_cache] recomputes the sum and stores it. *)
Theorem none_is_a_miss :
  (∀ (K : Type) (dec : EqDecision K) (self : LRUCache K) key,
     wf self → (1 ≤ capacity self)%Z →
     ∃ self',
       put key VNone self = Ok (tt, self')
       ∧ contains key self' = Ok (true, self')
       ∧ (∃ n, len self' = Ok (n, self') ∧ (1 ≤ n)%Z)
       ∧ (key ∉ keys (cache self) →
          (Z.of_nat (length (cache self)) < capacity self)%Z →
          length (cache self') = S (length (cache self)))
       ∧ (∃ self'', get key self' = Ok (VNone, self''))
       ∧ (∀ k, k ∉ keys (cache self') → get k self' = Ok (VNone, self')))
  ∧ (∀ (array : list Z) (L R : Z) (self : LRUCache (Z * Z)),
       wf self →
       od_find (L, R) (cache self) = Some VNone →
       range_sum_with_cache array L R self
         = Ok (VInt (range_sum_no_cache array L R),
               mkLRUCache (capacity self)
                 (od_remove (L, R) (cache self)
                    ++ [((L, R), VInt (range_sum_no_cache array L R))]))).
Proof.
  split.
  - intros K dec self key Hwf Hcap.
    destruct (put_ok key VNone self Hwf Hcap)
      as (self' & Hput & Hc & Hwf' & Hin & _).
    exists self'. split; [done|].
    split; [by rewrite contains_spec, bool_decide_eq_true_2|].
    split; [|split; [|split]].
    + exists (Z.of_nat (length (cache self'))). split; [apply len_spec|].
      unfold keys in Hin. destruct (cache self'); simpl in *; [|lia].
      by apply elem_of_nil in Hin.
    + intros Hnew Hroom. rewrite put_spec in Hput by done.
      rewrite bool_decide_eq_false_2 in Hput by done.
      destruct (Z.leb_spec (capacity self) (Z.of_nat (length (cache self))));
        [lia|].
      injection Hput as <-. simpl. rewrite length_app. simpl. lia.
    + rewrite get_spec by done.
      assert (od_find key (cache self') = Some VNone) as ->; [|by eexists].
      rewrite put_spec in Hput by done. unfold wf in Hwf.
      case_bool_decide as Hk.
      * injection Hput as <-. simpl. apply od_find_snoc.
        by apply od_remove_gone.
      * assert (∀ d', key ∉ keys d' →
                  od_find key (d' ++ [(key, VNone)]) = Some VNone) as Hsnoc
          by (intros; by apply od_find_snoc).
        destruct (capacity self <=? Z.of_nat (length (cache self)))%Z.
        -- destruct (cache self) as [|[k0 v0] d'] eqn:Ed; [done|].
           injection Hput as <-. simpl. apply Hsnoc.
           unfold keys in Hk. simpl in Hk.
           by apply not_elem_of_cons in Hk as [_ Hk].
        -- injection Hput as <-. simpl. by apply Hsnoc.
    + intros k Hk. rewrite get_spec by done.
      by apply od_find_None in Hk as ->.
  - intros array L R self Hwf Hfind. unfold range_sum_with_cache.
    unfold mbind at 1, prog_bind at 1. rewrite get_spec by done.
    rewrite Hfind. simpl.
    unfold mbind, prog_bind. rewrite put_spec.
    + simpl. rewrite bool_decide_eq_true_2.
      * unfold range_sum_no_cache, mret, prog_ret.
        rewrite od_remove_snoc; [done|]. apply od_remove_gone, Hwf.
      * rewrite keys_snoc. apply elem_of_app. right.
        by apply list_elem_of_singleton.
    + unfold wf. simpl. by apply moved_wf.
Qed.

Lemma none_is_a_miss_witness :
  range_sum_with_cache [1; 2; 3; 4; 5]%Z 1 3
    (mkLRUCache 2 [((1, 3), VNone); ((0, 0), VInt 1)]%Z)
  = Ok (VInt 9, mkLRUCache 2 [((0, 0), VInt 1); ((1, 3), VInt 9)]%Z).
Proof.
  refine (proj2 none_is_a_miss [1; 2; 3; 4; 5]%Z 1%Z 3%Z
            (mkLRUCache 2 [((1, 3), VNone); ((0, 0), VInt 1)]%Z) _ _).
  - unfold wf, keys. simpl. compute_done.
  - reflexivity.
Defined.

(** * The cached range sum agrees with the direct one *)

Section range_sum_facts.
Variable array : list Z.
Implicit Types (self : LRUCache (Z * Z)) (L R : Z).

Lemma coherent_moved (key : Z * Z) d :
  coherent array d →
  coherent array
    (od_remove key d ++ [(key, VInt (range_sum_no_cache array key.1 key.2))]).
Proof.
  unfold coherent. rewrite !Forall_forall. intros Hd kv Hin.
  apply elem_of_app in Hin as [Hin|Hin].
  - apply Hd. by eapply od_remove_elem.
  - apply list_elem_of_singleton in Hin. by subst.
Qed.

Lemma coherent_snoc (key : Z * Z) d :
  coherent array d →
  coherent array
    (d ++ [(key, VInt (range_sum_no_cache array key.1 key.2))]).
Proof.
  unfold coherent. rewrite !Forall_app, Forall_singleton. by split.
Qed.

(** One query on a coherent cache of positive capacity returns the direct
    range sum and leaves a coherent cache. *)
Lemma range_sum_with_cache_ok L R self :
  wf self → coherent array (cache self) → (1 ≤ capacity self)%Z →
  ∃ self',
    range_sum_with_cache array L R self
      = Ok (VInt (range_sum_no_cache array L R), self')
    ∧ wf self'
    ∧ coherent array (cache self')
    ∧ capacity self' = capacity self.
Proof.
  intros Hwf Hco Hcap. unfold range_sum_with_cache.
  unfold mbind at 1, prog_bind at 1. rewrite get_spec by done.
  destruct (od_find (L, R) (cache self)) as [v|] eqn:E.
  - assert (v = VInt (range_sum_no_cache array L R)) as ->.
    { apply od_find_Some in E. unfold coherent in Hco.
      rewrite Forall_forall in Hco. apply (Hco _ E). }
    simpl. eexists. split; [done|]. unfold wf. simpl.
    split; [by apply moved_wf|]. split; [|done].
    apply (coherent_moved (L, R)), Hco.
  - simpl. fold (range_sum_no_cache array L R).
    destruct (put_ok (L, R) (VInt (range_sum_no_cache array L R)) self
                Hwf Hcap) as (self' & Hput & Hc & Hwf' & _ & _).
    unfold mbind, prog_bind. rewrite Hput. simpl.
    exists self'. split; [done|]. split; [done|]. split; [|done].
    rewrite put_spec in Hput by done.
    apply od_find_None in E.
    rewrite bool_decide_eq_false_2 in Hput by done.
    destruct (capacity self <=? Z.of_nat (length (cache self)))%Z.
    + destruct (cache self) as [|kv0 d'] eqn:Ed; [done|].
      injection Hput as <-. simpl.
      apply (coherent_snoc (L, R)).
      unfold coherent in *. by apply Forall_cons in Hco as [_ Hco].
    + injection Hput as <-. simpl. by apply (coherent_snoc (L, R)).
Qed.

Lemma results_with_cache_ok (queries : list (Z * Z)) : ∀ self,
  wf self → coherent array (cache self) → (1 ≤ capacity self)%Z →
  ∃ self',
    results_with_cache array queries self
      = Ok (VInt <$> results_no_cache array queries, self').
Proof.
  unfold results_with_cache, results_no_cache.
  induction queries as [|[L R] queries IH]; intros self Hwf Hco Hcap; simpl.
  - by exists self.
  - destruct (range_sum_with_cache_ok L R self Hwf Hco Hcap)
      as (self1 & Hq & Hwf1 & Hco1 & Hc1).
    destruct (IH self1 Hwf1 Hco1) as (self' & Hrest); [lia|].
    exists self'. unfold mbind, prog_bind in *. by rewrite Hq, Hrest.
Qed.

End range_sum_facts.

(** C1. For a fixed array, any capacity of at least 1 and any sequence of
    queries [(L, R)] with [0 <= L <= R < len(array)], answering the queries
    in order through a newly constructed cache returns, for each query, the
    value that [range_sum_no_cache] returns. *)
Theorem cache_equivalence (array : list Z) (queries : list (Z * Z))
    (capacity : Z) :
  (1 ≤ capacity)%Z →
  Forall (λ q, (0 ≤ q.1 ∧ q.1 ≤ q.2 ∧ q.2 < Z.of_nat (length array))%Z)
    queries →
  ∃ self',
    run_from (LRUCache_init capacity) (results_with_cache array queries)
      = Ok (VInt <$> results_no_cache array queries, self').
Proof.
  intros Hcap _. simpl.
  apply (results_with_cache_ok array queries (mkLRUCache capacity [])); simpl.
  - unfold wf. simpl. constructor.
  - constructor.
  - done.
Qed.

Lemma cache_equivalence_witness :
  ∃ self',
    run_from (LRUCache_init 2)
      (results_with_cache [3; 1; 4; 1; 5]%Z
         [(0, 2); (1, 3); (0, 2); (2, 4); (4, 4); (0, 2)]%Z)
      = Ok (VInt <$> results_no_cache [3; 1; 4; 1; 5]%Z
                       [(0, 2); (1, 3); (0, 2); (2, 4); (4, 4); (0, 2)]%Z,
            self').
Proof.
  apply cache_equivalence; [lia|].
  repeat constructor; simpl; lia.
Defined.

(** * Order facts about binary64 floats *)

Section float_order.
Implicit Types (a b c : spec_float) (x y z : float).

Ltac cases_compare :=
  change (Pos.compare_cont Eq) with Pos.compare in *;
  repeat match goal with
         | |- context [(?p ?= ?q)%Z] =>
             destruct (Z.compare_spec p q); subst
         | |- context [(?p ?= ?q)%positive] =>
             destruct (Pos.compare_spec p q); subst
         end;
  simpl; try done; try lia.

Ltac cases_float a :=
  destruct a as [[]|[]| |[] ? ?]; simpl; try done.

Lemma SFleb_trans a b c :
  SFleb a b = true → SFleb b c = true → SFleb a c = true.
Proof.
  unfold SFleb, SFcompare.
  cases_float a; cases_float b; cases_float c; cases_compare.
Qed.

Lemma SFleb_not_SFltb a b : SFleb a b = true → SFltb b a = false.
Proof.
  unfold SFleb, SFltb, SFcompare.
  cases_float a; cases_float b; cases_compare.
Qed.

Lemma SFltb_false_SFleb a b :
  a ≠ S754_nan → b ≠ S754_nan → SFltb a b = false → SFleb b a = true.
Proof.
  unfold SFleb, SFltb, SFcompare.
  cases_float a; cases_float b; cases_compare.
Qed.

Lemma SFltb_not_nan a b : SFltb a b = true → a ≠ S754_nan ∧ b ≠ S754_nan.
Proof. unfold SFltb, SFcompare. cases_float a; cases_float b. Qed.

Lemma SFleb_refl a : a ≠ S754_nan → SFleb a a = true.
Proof. unfold SFleb, SFcompare. cases_float a; cases_compare. Qed.

(** [x < y] implies [x <= y]. *)
Lemma ltb_leb x y : (x <? y)%float = true → (x <=? y)%float = true.
Proof.
  rewrite ltb_spec, leb_spec. unfold SFltb, SFleb.
  by destruct (SFcompare (Prim2SF x) (Prim2SF y)) as [[]|].
Qed.

(** [x <= y] excludes [y < x]. *)
Lemma leb_not_ltb x y : (x <=? y)%float = true → (y <? x)%float = false.
Proof. rewrite ltb_spec, leb_spec. apply SFleb_not_SFltb. Qed.

Lemma leb_trans x y z :
  (x <=? y)%float = true → (y <=? z)%float = true → (x <=? z)%float = true.
Proof. rewrite !leb_spec. apply SFleb_trans. Qed.

Lemma ltb_is_number x y : (x <? y)%float = true → is_number y.
Proof. rewrite ltb_spec. intros H. by apply SFltb_not_nan in H as [_ ?]. Qed.

Lemma leb_refl x : is_number x → (x <=? x)%float = true.
Proof. rewrite leb_spec. apply SFleb_refl. Qed.

Lemma ltb_false_leb x y :
  is_number x → is_number y →
  (x <? y)%float = false → (y <=? x)%float = true.
Proof. rewrite ltb_spec, leb_spec. apply SFltb_false_SFleb. Qed.

End float_order.

(** * Facts about the rate limiter methods *)

Import Limiter.

Section limiter_facts.
Implicit Types (self : SlidingWindowRateLimiter) (w : world)
  (u user_id : string) (l : list float).

Ltac lim_unfold :=
  unfold can_send_message, record_message, time_until_next_allowed,
    get_message_count, _clean_old_messages, on_self, on_messages,
    dd_getitem, dd_setitem, time_time, lift_result in *;
  prog_unfold; simpl in *.

(** [min] of a non-empty list of numbers is one of them and is below
    all of them. *)
Lemma py_min_fold l : ∀ m0,
  is_number m0 → Forall is_number l →
  let m := foldl (λ m y, if (y <? m)%float then y else m) m0 l in
  (m = m0 ∨ m ∈ l) ∧ is_number m ∧ (m <=? m0)%float = true
  ∧ Forall (λ t, (m <=? t)%float = true) l.
Proof.
  induction l as [|y l IH]; intros m0 Hm0 Hl; simpl.
  - split; [by left|]. split; [done|]. split; [by apply leb_refl|done].
  - apply Forall_cons in Hl as [Hy Hl].
    destruct (y <? m0)%float eqn:Hlt.
    + destruct (IH y Hy Hl) as (Hin & Hnum & Hle & Hall).
      split; [right; apply elem_of_cons; naive_solver|].
      split; [done|].
      split; [eapply leb_trans; [exact Hle | by apply ltb_leb]|].
      by constructor.
    + destruct (IH m0 Hm0 Hl) as (Hin & Hnum & Hle & Hall).
      split; [rewrite elem_of_cons; naive_solver|].
      split; [done|]. split; [done|].
      constructor; [|done].
      eapply leb_trans; [exact Hle | by apply ltb_false_leb].
Qed.

Lemma py_min_spec l :
  l ≠ [] → Forall is_number l →
  ∃ m, py_min l = Ok m ∧ m ∈ l ∧ Forall (λ t, (m <=? t)%float = true) l.
Proof.
  destruct l as [|x l]; [done|]. intros _ Hl.
  apply Forall_cons in Hl as [Hx Hl].
  destruct (py_min_fold l x Hx Hl) as (Hin & Hnum & Hle & Hall).
  eexists. split; [done|].
  split; [rewrite elem_of_cons; naive_solver | by constructor].
Qed.

Lemma retained_is_number cutoff l : Forall is_number (retained cutoff l).
Proof.
  apply Forall_forall. intros t Ht. unfold retained in Ht.
  apply list_elem_of_In, filter_In in Ht as [_ Ht].
  by eapply ltb_is_number.
Qed.

Lemma clean_spec u now self :
  _clean_old_messages u now self = Ok (tt, pruned u now self).
Proof.
  destruct self as [ws mm um]. unfold pruned, retained. lim_unfold.
  destruct (um !! u) as [l|] eqn:E; simpl; [done|].
  by rewrite insert_insert_eq.
Qed.

Lemma getitem_pruned u now self :
  on_messages (dd_getitem u) (pruned u now self)
    = Ok (retained (now - window_size self)%float
            (default [] (user_messages self !! u)),
          pruned u now self).
Proof.
  unfold pruned, on_messages, dd_getitem. simpl.
  by rewrite lookup_insert_eq.
Qed.

Lemma stored_pruned u u' now (c : nat → float) n self :
  stored u' (mkWorld c n (pruned u now self))
    = if decide (u = u')
      then retained (now - window_size self)%float
             (default [] (user_messages self !! u))
      else default [] (user_messages self !! u').
Proof.
  unfold stored, pruned. simpl. destruct (decide (u = u')) as [->|Hne].
  - by rewrite lookup_insert_eq.
  - by rewrite lookup_insert_ne.
Qed.

Lemma can_send_message_spec u w :
  can_send_message u w =
    let now := clock w (ticks w) in
    Ok ((Z.of_nat
           (length (retained (now - window_size (limiter w))%float
                      (stored u w)))
         <? max_messages (limiter w))%Z,
        mkWorld (clock w) (S (ticks w)) (pruned u now (limiter w))).
Proof.
  unfold can_send_message, time_time, on_self. prog_unfold. simpl.
  rewrite clean_spec. simpl. rewrite getitem_pruned. done.
Qed.

Lemma get_message_count_spec u w :
  get_message_count u w =
    let now := clock w (ticks w) in
    Ok (Z.of_nat
          (length (retained (now - window_size (limiter w))%float
                     (stored u w))),
        mkWorld (clock w) (S (ticks w)) (pruned u now (limiter w))).
Proof.
  unfold get_message_count, time_time, on_self. prog_unfold. simpl.
  rewrite clean_spec. simpl. rewrite getitem_pruned. done.
Qed.

Lemma record_message_spec u w :
  record_message u w =
    let now := clock w (ticks w) in
    let self' := pruned u now (limiter w) in
    let l := retained (now - window_size (limiter w))%float (stored u w) in
    if (Z.of_nat (length l) <? max_messages (limiter w))%Z then
      Ok (true,
          mkWorld (clock w) (S (S (ticks w)))
            (mkLimiter (window_size self') (max_messages self')
               (<[u := l ++ [clock w (S (ticks w))]]>
                  (user_messages self'))))
    else Ok (false, mkWorld (clock w) (S (ticks w)) self').
Proof.
  unfold record_message. unfold mbind at 1, prog_bind at 1.
  rewrite can_send_message_spec. simpl.
  destruct (Z.of_nat _ <? _)%Z; simpl; [|done].
  unfold time_time, on_self. prog_unfold. simpl.
  rewrite getitem_pruned. simpl.
  unfold on_messages, dd_setitem, modify. simpl. done.
Qed.

Lemma time_until_next_allowed_spec u w :
  time_until_next_allowed u w =
    let now := clock w (ticks w) in
    let w' := mkWorld (clock w) (S (ticks w)) (pruned u now (limiter w)) in
    let l := retained (now - window_size (limiter w))%float (stored u w) in
    if (Z.of_nat (length l) <? max_messages (limiter w))%Z then
      Ok (0%float, w')
    else
      match py_min l with
      | Ok oldest =>
          Ok (py_max 0 ((oldest + window_size (limiter w)) - now)%float, w')
      | Raise e => Raise e
      end.
Proof.
  unfold time_until_next_allowed, time_time, on_self. prog_unfold. simpl.
  rewrite clean_spec. simpl. rewrite getitem_pruned. simpl.
  destruct (Z.of_nat _ <? _)%Z; simpl; [done|].
  rewrite getitem_pruned. simpl. unfold lift_result.
  by destruct (py_min _).
Qed.

End limiter_facts.

Section limiter_invariants.
Implicit Types (w : world) (u : string) (l : list float).

Lemma retained_sublist cutoff l : retained cutoff l `sublist_of` l.
Proof. apply filter_sublist. Qed.

Lemma stored_after_pruning u u' now w n :
  stored u' (mkWorld (clock w) n (pruned u now (limiter w)))
    `sublist_of` stored u' w.
Proof.
  rewrite stored_pruned. destruct (decide (u = u')) as [->|_].
  - apply retained_sublist.
  - done.
Qed.

Lemma stored_recorded u u' now t w n :
  stored u'
    (mkWorld (clock w) n
       (mkLimiter (window_size (limiter w)) (max_messages (limiter w))
          (<[u := retained (now - window_size (limiter w))%float
                    (stored u w) ++ [t]]>
             (user_messages (pruned u now (limiter w))))))
    = if decide (u = u')
      then retained (now - window_size (limiter w))%float (stored u w)
             ++ [t]
      else stored u' w.
Proof.
  unfold stored, pruned. simpl. destruct (decide (u = u')) as [->|Hne].
  - by rewrite lookup_insert_eq.
  - by rewrite !lookup_insert_ne.
Qed.

(** With a limit of at least 1, [time_until_next_allowed] never raises. *)
Lemma time_until_next_allowed_ok u w :
  (1 ≤ max_messages (limiter w))%Z →
  ∃ r, time_until_next_allowed u w
       = Ok (r, mkWorld (clock w) (S (ticks w))
                  (pruned u (clock w (ticks w)) (limiter w))).
Proof.
  intros Hmax. rewrite time_until_next_allowed_spec. simpl.
  destruct (Z.ltb_spec
              (Z.of_nat
                 (length
                    (retained
                       (clock w (ticks w) - window_size (limiter w))%float
                       (stored u w))))
              (max_messages (limiter w))) as [_|Hfull]; [by eexists|].
  destruct (py_min_spec
              (retained (clock w (ticks w) - window_size (limiter w))%float
                 (stored u w))) as (m & -> & _).
  - intros E. rewrite E in Hfull. simpl in Hfull. lia.
  - apply retained_is_number.
  - by eexists.
Qed.

Lemma limiter_call_ok (c : Limiter.call) w :
  (1 ≤ max_messages (limiter w))%Z →
  (∀ u, (Z.of_nat (length (stored u w)) ≤ max_messages (limiter w))%Z) →
  ∃ w', Limiter.do_call c w = Ok (tt, w')
    ∧ max_messages (limiter w') = max_messages (limiter w)
    ∧ (∀ u, (Z.of_nat (length (stored u w'))
             ≤ max_messages (limiter w))%Z).
Proof.
  intros Hmax Hinv.
  assert (Hpruned : ∀ u u' now n,
    (Z.of_nat (length (stored u' (mkWorld (clock w) n
                                    (pruned u now (limiter w)))))
     ≤ max_messages (limiter w))%Z).
  { intros u u' now n.
    pose proof (sublist_length _ _ (stored_after_pruning u u' now w n)).
    specialize (Hinv u'). lia. }
  destruct c as [u|u|u|u]; simpl; unfold mbind, prog_bind.
  - rewrite can_send_message_spec. simpl. eexists. split; [done|].
    split; [done|]. intros u'. apply Hpruned.
  - rewrite record_message_spec. simpl.
    destruct (Z.ltb_spec
                (Z.of_nat
                   (length
                      (retained
                         (clock w (ticks w) - window_size (limiter w))%float
                         (stored u w))))
                (max_messages (limiter w))) as [Hroom|_].
    + eexists. split; [done|]. split; [done|]. intros u'.
      rewrite stored_recorded. destruct (decide (u = u')) as [->|_].
      * rewrite length_app. simpl. lia.
      * apply Hinv.
    + eexists. split; [done|]. split; [done|]. intros u'. apply Hpruned.
  - destruct (time_until_next_allowed_ok u w Hmax) as [r ->].
    eexists. split; [done|]. split; [done|]. intros u'. apply Hpruned.
  - rewrite get_message_count_spec. simpl. eexists. split; [done|].
    split; [done|]. intros u'. apply Hpruned.
Qed.

Lemma counts_after_ok u (cs : list Limiter.call) : ∀ w,
  (1 ≤ max_messages (limiter w))%Z →
  (∀ u', (Z.of_nat (length (stored u' w)) ≤ max_messages (limiter w))%Z) →
  ∃ counts w', counts_after u cs w = Ok (counts, w')
    ∧ length counts = length cs
    ∧ Forall (λ n, (0 ≤ n ≤ max_messages (limiter w))%Z) counts.
Proof.
  unfold counts_after.
  induction cs as [|c cs IH]; intros w Hmax Hinv; simpl.
  - by exists [], w.
  - destruct (limiter_call_ok c w Hmax Hinv) as (w1 & Hcall & Hm & Hinv1).
    destruct (IH w1) as (counts & w' & Hrun & Hn & Hall).
    { by rewrite Hm. }
    { intros u'. rewrite Hm. apply Hinv1. }
    exists (Z.of_nat (length (stored u w1)) :: counts), w'.
    unfold mbind, prog_bind, gets in *. rewrite Hcall, Hrun.
    split; [done|]. split; [simpl; lia|].
    constructor; [specialize (Hinv1 u); lia|]. by rewrite <- Hm.
Qed.

(** Every operation other than [record_message] only removes timestamps. *)
Lemma only_record_appends (c : Limiter.call) w w' u :
  (∀ u0, c ≠ CallRecord u0) →
  Limiter.do_call c w = Ok (tt, w') →
  stored u w' `sublist_of` stored u w.
Proof.
  intros Hc. destruct c as [u0|u0|u0|u0]; simpl; unfold mbind, prog_bind.
  - rewrite can_send_message_spec. simpl. intros [= <-].
    apply stored_after_pruning.
  - by destruct (Hc u0).
  - rewrite time_until_next_allowed_spec. simpl.
    destruct (_ <? _)%Z; [|destruct (py_min _)]; intros [= <-];
      apply stored_after_pruning.
  - rewrite get_message_count_spec. simpl. intros [= <-].
    apply stored_after_pruning.
Qed.

(** [record_message] appends at most one timestamp, and only to a pruned
    list that is strictly shorter than the limit. *)
Lemma record_appends_under_limit u0 u w b w' :
  record_message u0 w = Ok (b, w') →
  stored u w' `sublist_of` stored u w
  ∨ (u0 = u ∧ b = true
     ∧ ∃ l t, stored u w' = l ++ [t]
         ∧ l `sublist_of` stored u w
         ∧ (Z.of_nat (length l) < max_messages (limiter w))%Z).
Proof.
  rewrite record_message_spec. simpl.
  destruct (Z.ltb_spec
              (Z.of_nat
                 (length
                    (retained
                       (clock w (ticks w) - window_size (limiter w))%float
                       (stored u0 w))))
              (max_messages (limiter w))) as [Hroom|_].
  - intros [= <- <-]. rewrite stored_recorded.
    destruct (decide (u0 = u)) as [->|_]; [right | by left].
    split; [done|]. split; [done|]. eexists _, _. split; [done|].
    split; [apply retained_sublist | done].
  - intros [= <- <-]. left. apply stored_after_pruning.
Qed.

(** With a limit of at most 0 and nothing retained for the user,
    [time_until_next_allowed] raises [ValueError]: [min] is called on an
    empty list. *)
Lemma time_until_next_allowed_degenerate u w :
  (max_messages (limiter w) ≤ 0)%Z →
  retained (clock w (ticks w) - window_size (limiter w))%float (stored u w)
    = [] →
  time_until_next_allowed u w = Raise ValueError.
Proof.
  intros Hmax Hnone. rewrite time_until_next_allowed_spec. simpl.
  rewrite Hnone. simpl. change (Z.of_nat 0) with 0%Z.
  destruct (Z.ltb_spec 0 (max_messages (limiter w))); [lia | done].
Qed.

End limiter_invariants.

(** * Properties of the rate limiter *)

(** C6. [can_send_message] first prunes: the user's list becomes the stored
    timestamps strictly after [now - window_size], so every stored [t] with
    [t <= now - window_size] is removed and every [t] after the cutoff is
    kept; it then returns true exactly when the remaining count is strictly
    below [max_messages]. With a window of 10 and a limit of 1, after a
    record at time 0 the check is false at 9.999 and true at 10.001, and a
    timestamp exactly at the cutoff (check at 10) is expired. *)
Theorem can_send_message_correct :
  (∀ (w : world) (u : string),
     let cutoff := (clock w (ticks w) - window_size (limiter w))%float in
     ∃ b w',
       can_send_message u w = Ok (b, w')
       ∧ stored u w' = retained cutoff (stored u w)
       ∧ (∀ t, t ∈ stored u w → (t <=? cutoff)%float = true →
               t ∉ stored u w')
       ∧ (∀ t, t ∈ stored u w → (cutoff <? t)%float = true →
               t ∈ stored u w')
       ∧ (b = true ↔
          (Z.of_nat (length (stored u w')) < max_messages (limiter w))%Z))
  ∧ returned
      (run_from (start (clock_of [0; 0; 9.999]%float) 10 1)
         (r ← record_message "u"; c ← can_send_message "u"; mret (r, c)))
    = Some (true, false)
  ∧ returned
      (run_from (start (clock_of [0; 0; 10.001]%float) 10 1)
         (r ← record_message "u"; c ← can_send_message "u"; mret (r, c)))
    = Some (true, true)
  ∧ returned
      (run_from (start (clock_of [0; 0; 10]%float) 10 1)
         (r ← record_message "u"; c ← can_send_message "u"; mret (r, c)))
    = Some (true, true).
Proof.
  split; [|by vm_compute].
  intros w u cutoff. rewrite can_send_message_spec. simpl.
  eexists _, _. split; [done|].
  rewrite stored_pruned, decide_True by done. fold (stored u w). fold cutoff.
  split; [done|]. split; [|split].
  - intros t _ Hle Hin. unfold retained in Hin.
    apply list_elem_of_In, filter_In in Hin as [_ Hlt].
    apply leb_not_ltb in Hle. congruence.
  - intros t Hin Hlt. unfold retained.
    apply list_elem_of_In, filter_In. split; [by apply list_elem_of_In|done].
  - apply Z.ltb_lt.
Qed.

(** C7. With a limit of at least 1, [time_until_next_allowed] prunes, then
    returns 0.0 when the retained count is strictly below [max_messages],
    and otherwise [max(0.0, (oldest + window_size) - now)] where [oldest] is
    a retained timestamp below all retained ones; the result is never below
    zero. With a window of 10, a limit of 1 and one event recorded at time 0,
    the call at time 3 returns 7.0. *)
Theorem time_until_next_allowed_correct :
  (∀ (w : world) (u : string),
     (1 ≤ max_messages (limiter w))%Z →
     let now := clock w (ticks w) in
     let ws := window_size (limiter w) in
     ∃ r w',
       time_until_next_allowed u w = Ok (r, w')
       ∧ stored u w' = retained (now - ws)%float (stored u w)
       ∧ ((Z.of_nat (length (stored u w')) < max_messages (limiter w))%Z →
          r = 0%float)
       ∧ ((max_messages (limiter w) ≤ Z.of_nat (length (stored u w')))%Z →
          ∃ oldest,
            oldest ∈ stored u w'
            ∧ Forall (λ t, (oldest <=? t)%float = true) (stored u w')
            ∧ r = py_max 0 ((oldest + ws) - now)%float)
       ∧ (0 <=? r)%float = true)
  ∧ returned
      (run_from (start (clock_of [0; 0; 3]%float) 10 1)
         (record_message "u";; time_until_next_allowed "u"))
    = Some 7%float.
Proof.
  split; [|by vm_compute].
  intros w u Hmax now ws.
  assert (Hpos : ∀ x, (0 <=? py_max 0 x)%float = true).
  { intros x. unfold py_max. destruct (0 <? x)%float eqn:E; [|done].
    by apply ltb_leb. }
  rewrite time_until_next_allowed_spec. simpl. fold now ws.
  set (l := retained (now - ws)%float (stored u w)).
  assert (Hst : stored u (mkWorld (clock w) (S (ticks w))
                            (pruned u now (limiter w))) = l).
  { rewrite stored_pruned, decide_True by done. done. }
  destruct (Z.ltb_spec (Z.of_nat (length l)) (max_messages (limiter w)))
    as [Hroom|Hfull].
  - eexists _, _. split; [done|]. rewrite Hst. split; [done|].
    split; [done|]. split; [lia | done].
  - destruct (py_min_spec l) as (oldest & -> & Hin & Hall).
    + intros E. rewrite E in Hfull. simpl in Hfull. lia.
    + apply retained_is_number.
    + eexists _, _. split; [done|]. rewrite Hst. split; [done|].
      split; [lia|]. split; [|apply Hpos].
      intros _. by exists oldest.
Qed.

Lemma time_until_next_allowed_correct_witness :
  let w := mkWorld (clock_of [3]%float) 0
             (mkLimiter 10 1 {["u"%string := [0%float]]}) in
  ∃ r w',
    time_until_next_allowed "u" w = Ok (r, w')
    ∧ stored "u" w' = retained (3 - 10)%float (stored "u" w)
    ∧ ((Z.of_nat (length (stored "u" w')) < 1)%Z → r = 0%float)
    ∧ ((1 ≤ Z.of_nat (length (stored "u" w')))%Z →
       ∃ oldest,
         oldest ∈ stored "u" w'
         ∧ Forall (λ t, (oldest <=? t)%float = true) (stored "u" w')
         ∧ r = py_max 0 ((oldest + 10) - 3)%float)
    ∧ (0 <=? r)%float = true.
Proof.
  intros w.
  apply (proj1 time_until_next_allowed_correct w "u"%string).
  simpl. lia.
Defined.

(** C8, as the code has it. [record_message] re-checks the permission
    through [can_send_message], which reads the clock and prunes. When the
    retained count is at or above [max_messages] it returns false, the
    user's list is the pruned list and the clock was read once. When the
    count is below the limit it reads the clock a second time, appends that
    second reading to the user's list and returns true. Other users' lists
    are untouched. *)
Theorem record_message_correct (w : world) (u : string) :
  let now1 := clock w (ticks w) in
  let now2 := clock w (S (ticks w)) in
  let l := retained (now1 - window_size (limiter w))%float (stored u w) in
  ∃ b w',
    record_message u w = Ok (b, w')
    ∧ (b = true ↔ (Z.of_nat (length l) < max_messages (limiter w))%Z)
    ∧ (b = false → stored u w' = l ∧ ticks w' = S (ticks w))
    ∧ (b = true → stored u w' = l ++ [now2] ∧ ticks w' = S (S (ticks w)))
    ∧ (∀ u', u' ≠ u → stored u' w' = stored u' w).
Proof.
  intros now1 now2 l. rewrite record_message_spec. simpl.
  fold now1 now2 l.
  destruct (Z.ltb_spec (Z.of_nat (length l)) (max_messages (limiter w)))
    as [Hroom|Hfull].
  - eexists _, _. split; [done|]. split; [done|]. split; [done|].
    split.
    + intros _. unfold l, now1. rewrite stored_recorded.
      by rewrite decide_True.
    + intros u' Hne. unfold l, now1. rewrite stored_recorded.
      by rewrite decide_False.
  - eexists _, _. split; [done|]. split; [split; [done | lia]|].
    split; [|split; [done|]].
    + intros _. rewrite stored_pruned. by rewrite decide_True.
    + intros u' Hne. rewrite stored_pruned. by rewrite decide_False.
Qed.

(** C8 fails as stated: a successful [record_message] takes two clock
    readings, and the appended timestamp is the second one, not the reading
    used by the check. Here the check reads 5 and the stored timestamp is
    20. *)
Lemma record_message_reads_clock_twice :
  let w := mkWorld (clock_of [5; 20]%float) 0 (mkLimiter 10 1 ∅) in
  ∃ w',
    record_message "u" w = Ok (true, w')
    ∧ ticks w = 0 ∧ ticks w' = 2
    ∧ clock w (ticks w) = 5%float
    ∧ stored "u" w' = [20%float]
    ∧ stored "u" w' ≠ retained (5 - 10)%float (stored "u" w) ++ [5%float].
Proof.
  intros w. eexists. split; [by vm_compute|].
  split; [done|]. split; [done|]. split; [done|]. split; [done|].
  vm_compute. intros [=].
Qed.

(** C9. For a limiter constructed with [max_messages >= 1], any clock (in
    particular a non-decreasing one), any user and any sequence of calls,
    every call returns and the number of timestamps stored for the user,
    read after each call, is at most [max_messages]; every operation other
    than [record_message] leaves a sublist of what was stored, and
    [record_message] appends one timestamp only to a pruned list strictly
    shorter than [max_messages]. *)
Theorem stored_count_bounded (clock : nat → float) (window_size : float)
    (max_messages : Z) (u : string) (cs : list Limiter.call) :
  (1 ≤ max_messages)%Z →
  (∃ counts w',
     run_from (start clock window_size max_messages) (counts_after u cs)
       = Ok (counts, w')
     ∧ length counts = length cs
     ∧ Forall (λ n, (0 ≤ n ≤ max_messages)%Z) counts)
  ∧ (∀ c w w', (∀ u0, c ≠ CallRecord u0) →
       Limiter.do_call c w = Ok (tt, w') →
       stored u w' `sublist_of` stored u w)
  ∧ (∀ u0 w b w',
       record_message u0 w = Ok (b, w') →
       stored u w' `sublist_of` stored u w
       ∨ (u0 = u ∧ b = true
          ∧ ∃ l t, stored u w' = l ++ [t]
              ∧ l `sublist_of` stored u w
              ∧ (Z.of_nat (length l) < Limiter.max_messages (limiter w))%Z)).
Proof.
  intros Hmax. split; [|split].
  - simpl.
    apply (counts_after_ok u cs
             (mkWorld clock 0 (mkLimiter window_size max_messages ∅))).
    + done.
    + intros u'. unfold stored. simpl. rewrite lookup_empty. simpl. lia.
  - intros c w w'. apply only_record_appends.
  - intros u0 w b w'. apply record_appends_under_limit.
Qed.

Lemma stored_count_bounded_witness :
  ∃ counts w',
    run_from (start (clock_of [0; 1; 2; 3; 14; 15; 16]%float) 10 2)
      (counts_after "u"
         [CallRecord "u"; CallRecord "u"; CallRecord "u"; CallCanSend "v";
          CallTimeUntil "u"; CallGetCount "u"; CallRecord "u"])
      = Ok (counts, w')
    ∧ length counts = 7
    ∧ Forall (λ n, (0 ≤ n ≤ 2)%Z) counts.
Proof.
  apply (stored_count_bounded (clock_of [0; 1; 2; 3; 14; 15; 16]%float)
           10 2 "u"
           [CallRecord "u"; CallRecord "u"; CallRecord "u"; CallCanSend "v";
            CallTimeUntil "u"; CallGetCount "u"; CallRecord "u"]).
  lia.
Defined.

(** * Construction *)

(** C2, as the code has it. Neither constructor validates its arguments:
    for every capacity, window size and limit, construction returns an
    instance holding the given configuration and an empty store. The
    degenerate instance shows later: on a new cache of capacity at most 0
    the first [put] raises [KeyError], and a limiter with a limit of at most
    0 answers false to every [can_send_message]. *)
Theorem construction_accepts_any_configuration :
  (∀ (K : Type) (capacity : Z),
     @LRUCache_init K capacity = Ok (mkLRUCache capacity []))
  ∧ (∀ (window_size : float) (max_messages : Z),
       SlidingWindowRateLimiter_init window_size max_messages
         = Ok (mkLimiter window_size max_messages ∅))
  ∧ (∀ (K : Type) (dec : EqDecision K) (capacity : Z) (key : K) v,
       (capacity ≤ 0)%Z →
       run_from (LRUCache_init capacity) (put key v) = Raise KeyError)
  ∧ (∀ (w : world) (u : string),
       (Limiter.max_messages (limiter w) ≤ 0)%Z →
       ∃ w', can_send_message u w = Ok (false, w')).
Proof.
  split; [done|]. split; [done|]. split.
  - intros K dec capacity key v. apply put_degenerate.
  - intros w u Hmax. rewrite can_send_message_spec. simpl.
    eexists. do 2 f_equal. apply Z.ltb_ge. lia.
Qed.

Lemma construction_accepts_any_configuration_witness :
  run_from (LRUCache_init 0) (put (0, 0)%Z (VInt 1)) = Raise KeyError
  ∧ ∃ w',
      can_send_message "u"
        (mkWorld (clock_of [0%float]) 0 (mkLimiter 10 0 ∅))
      = Ok (false, w').
Proof.
  destruct construction_accepts_any_configuration as (_ & _ & Hput & Hcan).
  split.
  - apply Hput. lia.
  - apply Hcan. simpl. lia.
Defined.

(** C2 fails as stated: a cache of capacity 0 and of capacity -1, and a
    limiter with a window of -1 seconds or with a limit of 0 messages, are
    all constructed without an error. *)
Lemma degenerate_configuration_not_rejected :
  (∀ e, @LRUCache_init (Z * Z) 0 ≠ Raise e)
  ∧ (∀ e, @LRUCache_init (Z * Z) (-1) ≠ Raise e)
  ∧ (∀ e, SlidingWindowRateLimiter_init (-1) 1 ≠ Raise e)
  ∧ (∀ e, SlidingWindowRateLimiter_init 10 0 ≠ Raise e).
Proof. repeat split; intros e; discriminate. Qed.

(** * Updating the array behind the cache *)

Import Session.

Section session_facts.
Implicit Types (s : session) (arr : list Z) (L R idx x : Z).

(** A slice that starts at a non-negative index does not see a write made
    before its start or at or after its stop. *)
Lemma py_slice_insert_outside arr (i : nat) (x : Z) L R :
  (0 ≤ L)%Z → (0 ≤ R)%Z → (Z.of_nat i < L ∨ R ≤ Z.of_nat i)%Z →
  py_slice (<[i := x]> arr) L R = py_slice arr L R.
Proof.
  intros HL HR Hout. unfold py_slice, slice_index.
  rewrite length_insert.
  destruct (Z.ltb_spec L 0) as [?|_]; [lia|].
  destruct (Z.ltb_spec R 0) as [?|_]; [lia|].
  destruct (decide (i < length arr)) as [Hi|Hi];
    [|by rewrite list_insert_ge by lia].
  destruct (decide (i < Z.to_nat (Z.min L (Z.of_nat (length arr)))))
    as [Hlo|Hlo].
  - by rewrite drop_insert_lt.
  - rewrite drop_insert_ge by lia. rewrite take_insert_ge; [done | lia].
Qed.

Lemma range_sum_insert_outside arr (i : nat) (x : Z) L R :
  (0 ≤ L)%Z → (L ≤ R)%Z → ¬ (L ≤ Z.of_nat i ∧ Z.of_nat i ≤ R)%Z →
  range_sum_no_cache (<[i := x]> arr) L R = range_sum_no_cache arr L R.
Proof.
  intros HL HLR Hout. unfold range_sum_no_cache.
  rewrite py_slice_insert_outside; [done | lia | lia | lia].
Qed.

Lemma list_position_in_range (n : nat) idx :
  (0 ≤ idx < Z.of_nat n)%Z →
  list_position (Z.of_nat n) idx = Some (Z.to_nat idx).
Proof.
  intros Hidx. unfold list_position.
  destruct (Z.ltb_spec idx (- Z.of_nat n)); [lia|].
  destruct (Z.leb_spec (Z.of_nat n) idx); [lia|]. simpl.
  destruct (Z.ltb_spec idx 0); [lia | done].
Qed.

Lemma list_position_negative (n : nat) idx :
  (- Z.of_nat n ≤ idx < 0)%Z →
  list_position (Z.of_nat n) idx = Some (Z.to_nat (idx + Z.of_nat n)).
Proof.
  intros Hidx. unfold list_position.
  destruct (Z.ltb_spec idx (- Z.of_nat n)); [lia|].
  destruct (Z.leb_spec (Z.of_nat n) idx); [lia|]. simpl.
  destruct (Z.ltb_spec idx 0); [done | lia].
Qed.

Lemma list_position_none (n : nat) idx :
  (idx < - Z.of_nat n ∨ Z.of_nat n ≤ idx)%Z →
  list_position (Z.of_nat n) idx = None.
Proof.
  intros Hidx. unfold list_position.
  destruct (Z.ltb_spec idx (- Z.of_nat n)); [done|].
  destruct (Z.leb_spec (Z.of_nat n) idx); [done | lia].
Qed.

(** What [update_array] does when the index denotes position [i]. *)
Lemma update_array_at s idx x (i : nat) :
  wf (lru s) →
  list_position (Z.of_nat (length (array s))) idx = Some i →
  update_array idx x s =
    Return (tt,
      mkSession (<[i := x]> (array s))
        (mkLRUCache (capacity (lru s))
           (survivors
              (λ key : Z * Z, (key.1 <=? idx)%Z && (idx <=? key.2)%Z)
              (cache (lru s))))).
Proof.
  intros Hwf Hpos. unfold update_array, on_array, on_lru, list_setitem, lift.
  unfold mbind, script_bind. rewrite Hpos. simpl.
  by rewrite invalidate_spec.
Qed.

Lemma survivors_elem (predicate : Z * Z → bool) (d : odict (Z * Z)) kv :
  kv ∈ survivors predicate d ↔ kv ∈ d ∧ predicate kv.1 = false.
Proof.
  unfold survivors. rewrite !list_elem_of_In, filter_In.
  by rewrite negb_true_iff.
Qed.

Lemma survivors_all (predicate : Z * Z → bool) (d : odict (Z * Z)) :
  Forall (λ kv, predicate kv.1 = false) d → survivors predicate d = d.
Proof.
  unfold survivors. induction 1 as [|kv d Hkv _ IH]; simpl; [done|].
  by rewrite Hkv, IH.
Qed.

(** One in-range update keeps the cache well formed, free of entries that
    span the index, and coherent with the new array. *)
Lemma update_array_ok s idx x :
  wf (lru s) → coherent (array s) (cache (lru s)) →
  valid_keys (cache (lru s)) →
  (0 ≤ idx < Z.of_nat (length (array s)))%Z →
  ∃ s',
    update_array idx x s = Return (tt, s')
    ∧ array s' = <[Z.to_nat idx := x]> (array s)
    ∧ capacity (lru s') = capacity (lru s)
    ∧ wf (lru s')
    ∧ coherent (array s') (cache (lru s'))
    ∧ valid_keys (cache (lru s'))
    ∧ (∀ kv, kv ∈ cache (lru s') ↔
             kv ∈ cache (lru s) ∧ ¬ (kv.1.1 ≤ idx ∧ idx ≤ kv.1.2)%Z).
Proof.
  intros Hwf Hco Hkeys Hidx.
  rewrite (update_array_at s idx x (Z.to_nat idx))
    by (done || by apply list_position_in_range).
  eexists. split; [done|]. simpl. split; [done|]. split; [done|].
  assert (Hmem : ∀ kv : Z * Z * value,
    kv ∈ survivors (λ key : Z * Z, (key.1 <=? idx)%Z && (idx <=? key.2)%Z)
           (cache (lru s))
    ↔ kv ∈ cache (lru s) ∧ ¬ (kv.1.1 ≤ idx ∧ idx ≤ kv.1.2)%Z).
  { intros kv. rewrite survivors_elem. simpl.
    rewrite andb_false_iff, Z.leb_gt, Z.leb_gt. split.
    - intros [? ?]. split; [done | lia].
    - intros [? ?]. split; [done | lia]. }
  split; [by apply keys_filter_NoDup|].
  unfold coherent, valid_keys in *. rewrite Forall_forall in Hco, Hkeys.
  split; [|split; [|done]].
  - apply Forall_forall. intros kv Hkv. apply Hmem in Hkv as [Hkv Hout].
    rewrite (Hco kv Hkv). f_equal. symmetry.
    destruct (Hkeys kv Hkv) as [? ?].
    apply range_sum_insert_outside; [done | done | lia].
  - apply Forall_forall. intros kv Hkv. apply Hmem in Hkv as [Hkv _].
    by apply Hkeys.
Qed.

End session_facts.

Section session_invariants.
Implicit Types (s : session) (self : LRUCache (Z * Z)) (L R idx x : Z).

(** Entries after a [get] were there before. *)
Lemma get_entries {K : Type} `{EqDecision K} (key : K) (c c' : LRUCache K) v :
  wf c → get key c = Ok (v, c') →
  ∀ kv, kv ∈ cache c' → kv ∈ cache c.
Proof.
  intros Hwf. rewrite get_spec by done.
  destruct (od_find key (cache c)) as [v0|] eqn:E; intros [= <- <-] kv;
    [|done].
  simpl. rewrite elem_of_app, list_elem_of_singleton.
  intros [Hkv| ->]; [by eapply od_remove_elem | by apply od_find_Some].
Qed.

(** Entries after a [put] were there before or are the one put. *)
Lemma put_entries {K : Type} `{EqDecision K} (key : K) v (c c' : LRUCache K) :
  wf c → put key v c = Ok (tt, c') →
  ∀ kv, kv ∈ cache c' → kv ∈ cache c ∨ kv = (key, v).
Proof.
  intros Hwf. rewrite put_spec by done.
  case_bool_decide as Hin.
  - intros [= <-] kv. simpl. rewrite elem_of_app, list_elem_of_singleton.
    intros [Hkv| ->]; [left; by eapply od_remove_elem | by right].
  - destruct (capacity c <=? Z.of_nat (length (cache c)))%Z.
    + destruct (cache c) as [|kv0 d']; [done|].
      intros [= <-] kv. simpl.
      rewrite elem_of_app, list_elem_of_singleton, elem_of_cons. naive_solver.
    + intros [= <-] kv. simpl.
      rewrite elem_of_app, list_elem_of_singleton. naive_solver.
Qed.

Lemma range_sum_with_cache_entries (arr : list Z) L R self self' v :
  wf self → range_sum_with_cache arr L R self = Ok (v, self') →
  ∀ kv, kv ∈ cache self' → kv ∈ cache self ∨ kv.1 = (L, R).
Proof.
  intros Hwf. unfold range_sum_with_cache.
  unfold mbind at 1, prog_bind at 1.
  destruct (get (L, R) self) as [[v0 self0]|e] eqn:Hget; [|done].
  pose proof (get_entries _ _ _ _ Hwf Hget) as Hsub.
  destruct (is_not_none v0).
  - intros [= <- <-] kv Hkv. left. by apply Hsub.
  - unfold mbind, prog_bind.
    destruct (put (L, R) _ self0) as [[[] self1]|e] eqn:Hput; [|done].
    intros [= <- <-] kv Hkv.
    destruct (get_ok (L, R) self Hwf) as (v' & self0' & Hget' & _ & Hwf0 & _).
    rewrite Hget in Hget'. injection Hget' as <- <-.
    destruct (put_entries _ _ _ _ Hwf0 Hput kv Hkv) as [?| ->];
      [left; by apply Hsub | by right].
Qed.

(** One valid request served through a coherent cache gives the answer of
    the direct computation and leaves a coherent cache. *)
Lemma serve_ok (r : request) s :
  wf (lru s) → coherent (array s) (cache (lru s)) →
  valid_keys (cache (lru s)) → (1 ≤ capacity (lru s))%Z →
  valid_request (length (array s)) r →
  ∃ a s',
    serve r s = Return (a, s')
    ∧ serve_direct r (array s) = Return (a, array s')
    ∧ length (array s') = length (array s)
    ∧ capacity (lru s') = capacity (lru s)
    ∧ wf (lru s')
    ∧ coherent (array s') (cache (lru s'))
    ∧ valid_keys (cache (lru s')).
Proof.
  intros Hwf Hco Hkeys Hcap Hr. destruct r as [L R|idx x]; simpl in *.
  - destruct (range_sum_with_cache_ok (array s) L R (lru s) Hwf Hco Hcap)
      as (self' & Hq & Hwf' & Hco' & Hc').
    exists (Some (VInt (range_sum_no_cache (array s) L R))),
      (mkSession (array s) self').
    unfold cached_query, on_lru, lift, reads, mbind, script_bind.
    rewrite Hq. simpl. do 6 (split; [done|]).
    unfold valid_keys in *. rewrite Forall_forall in *. intros kv Hkv.
    destruct (range_sum_with_cache_entries _ _ _ _ _ _ Hwf Hq kv Hkv)
      as [?| ->]; [by apply Hkeys | done].
  - destruct (update_array_ok s idx x Hwf Hco Hkeys Hr)
      as (s' & Hup & Harr & Hc' & Hwf' & Hco' & Hkeys' & _).
    exists None, s'. unfold mbind, script_bind. rewrite Hup. simpl.
    split; [done|]. split.
    + unfold list_setitem. rewrite list_position_in_range by done.
      by rewrite Harr.
    + split; [by rewrite Harr, length_insert | done].
Qed.

Lemma serve_all_ok (rs : list request) : ∀ s,
  wf (lru s) → coherent (array s) (cache (lru s)) →
  valid_keys (cache (lru s)) → (1 ≤ capacity (lru s))%Z →
  Forall (valid_request (length (array s))) rs →
  ∃ answers s',
    collect rs serve s = Return (answers, s')
    ∧ collect rs serve_direct (array s) = Return (answers, array s').
Proof.
  induction rs as [|r rs IH]; intros s Hwf Hco Hkeys Hcap Hrs; simpl.
  - by exists [], s.
  - apply Forall_cons in Hrs as [Hr Hrs].
    destruct (serve_ok r s Hwf Hco Hkeys Hcap Hr)
      as (a & s1 & Hs & Hd & Hlen & Hc1 & Hwf1 & Hco1 & Hkeys1).
    destruct (IH s1) as (answers & s' & Hrest & Hdrest); try done.
    { lia. }
    { by rewrite Hlen. }
    exists (a :: answers), s'. unfold mbind, script_bind in *.
    by rewrite Hs, Hd, Hrest, Hdrest.
Qed.

End session_invariants.

(** * Further properties of the array updates *)

(** X1. An update at a position [0 <= idx < len(array)], on a cache that is
    coherent with the array and holds keys with [0 <= L <= R], writes the
    element, keeps exactly the entries whose range does not contain [idx],
    and leaves every cached sum equal to the sum over the new array. *)
Theorem update_array_no_stale_entries (s : session) (idx x : Z) :
  wf (lru s) → coherent (array s) (cache (lru s)) →
  valid_keys (cache (lru s)) →
  (0 ≤ idx < Z.of_nat (length (array s)))%Z →
  ∃ s',
    update_array idx x s = Return (tt, s')
    ∧ array s' = <[Z.to_nat idx := x]> (array s)
    ∧ coherent (array s') (cache (lru s'))
    ∧ (∀ kv, kv ∈ cache (lru s') ↔
             kv ∈ cache (lru s) ∧ ¬ (kv.1.1 ≤ idx ∧ idx ≤ kv.1.2)%Z).
Proof.
  intros Hwf Hco Hkeys Hidx.
  destruct (update_array_ok s idx x Hwf Hco Hkeys Hidx)
    as (s' & Hup & Harr & _ & _ & Hco' & _ & Hmem).
  by exists s'.
Qed.

Lemma update_array_no_stale_entries_witness :
  let s := mkSession [1; 2; 3; 4; 5]%Z
             (mkLRUCache 5
                [((0, 2), VInt 6); ((3, 4), VInt 9); ((1, 3), VInt 9)]%Z) in
  ∃ s',
    update_array 2 100 s = Return (tt, s')
    ∧ array s' = <[2%nat := 100%Z]> (array s)
    ∧ coherent (array s') (cache (lru s'))
    ∧ (∀ kv, kv ∈ cache (lru s') ↔
             kv ∈ cache (lru s) ∧ ¬ (kv.1.1 ≤ 2 ∧ 2 ≤ kv.1.2)%Z).
Proof.
  intros s. apply (update_array_no_stale_entries s 2 100).
  - unfold wf, keys. simpl. compute_done.
  - unfold coherent. simpl. repeat constructor.
  - unfold valid_keys. simpl. repeat constructor; simpl; lia.
  - simpl. lia.
Defined.

(** X2. For a cache of capacity at least 1 and any sequence of queries with
    [0 <= L <= R] and updates at positions [0 <= idx < len(array)], serving
    the requests through the cache gives, request by request, the answers of
    recomputing every sum on the current array, and the same final array. *)
Theorem cached_session_equivalence (arr : list Z) (rs : list request)
    (capacity : Z) :
  (1 ≤ capacity)%Z →
  Forall (valid_request (length arr)) rs →
  ∃ answers s',
    run_script (new_session arr capacity) (collect rs serve)
      = Return (answers, s')
    ∧ collect rs serve_direct arr = Return (answers, array s').
Proof.
  intros Hcap Hrs. simpl.
  apply (serve_all_ok rs (mkSession arr (mkLRUCache capacity []))); simpl.
  - unfold wf. simpl. constructor.
  - constructor.
  - constructor.
  - done.
  - done.
Qed.

Lemma cached_session_equivalence_witness :
  ∃ answers s',
    run_script (new_session [1; 2; 3; 4; 5]%Z 2)
      (collect [Query 0 2; Query 1 3; Update 2 100; Query 0 2; Query 3 4;
                Update 4 0; Query 3 4; Query 0 2] serve)
      = Return (answers, s')
    ∧ collect [Query 0 2; Query 1 3; Update 2 100; Query 0 2; Query 3 4;
               Update 4 0; Query 3 4; Query 0 2] serve_direct
        [1; 2; 3; 4; 5]%Z
      = Return (answers, array s').
Proof.
  apply cached_session_equivalence; [lia|].
  repeat constructor; simpl; lia.
Defined.

(** X3. [update_array] raises [IndexError] for an index outside
    [-len(array) .. len(array)-1]. For a negative index inside that range it
    overwrites position [len(array) + idx] but removes no entry of a cache
    whose keys have [0 <= L], so a later cached query of a cached range still
    returns the sum over the array as it was before the update. *)
Theorem update_array_index_edges :
  (∀ (s : session) (idx x : Z),
     (idx < - Z.of_nat (length (array s))
      ∨ Z.of_nat (length (array s)) ≤ idx)%Z →
     update_array idx x s = Throw IndexError)
  ∧ (∀ (s : session) (idx x L R : Z),
       wf (lru s) → coherent (array s) (cache (lru s)) →
       valid_keys (cache (lru s)) →
       (- Z.of_nat (length (array s)) ≤ idx < 0)%Z →
       (L, R) ∈ keys (cache (lru s)) →
       ∃ s' s'',
         update_array idx x s = Return (tt, s')
         ∧ array s'
           = <[Z.to_nat (idx + Z.of_nat (length (array s))) := x]> (array s)
         ∧ lru s' = lru s
         ∧ cached_query L R s'
           = Return (VInt (range_sum_no_cache (array s) L R), s'')).
Proof.
  split.
  - intros s idx x Hidx. unfold update_array, on_array, list_setitem.
    unfold mbind, script_bind. by rewrite list_position_none.
  - intros s idx x L R Hwf Hco Hkeys Hidx Hin.
    rewrite (update_array_at s idx x
               (Z.to_nat (idx + Z.of_nat (length (array s)))))
      by (done || by apply list_position_negative).
    rewrite survivors_all.
    2:{ unfold valid_keys in Hkeys. eapply Forall_impl; [exact Hkeys|].
        intros kv [? _]. simpl. apply andb_false_iff. left.
        apply Z.leb_gt. lia. }
    destruct (od_find_is_Some (L, R) _ Hin) as [v Hfind].
    assert (v = VInt (range_sum_no_cache (array s) L R)) as ->.
    { apply od_find_Some in Hfind. unfold coherent in Hco.
      rewrite Forall_forall in Hco. apply (Hco _ Hfind). }
    eexists _, _. split; [done|]. simpl. split; [done|].
    split; [by destruct (lru s)|].
    unfold cached_query, on_lru, lift, reads, mbind, script_bind. simpl.
    unfold range_sum_with_cache, mbind, prog_bind.
    rewrite get_spec by (by destruct (lru s)).
    simpl. rewrite Hfind. simpl. done.
Qed.

Lemma update_array_index_edges_witness :
  let s := mkSession [1; 2; 3]%Z (mkLRUCache 4 [((0, 2), VInt 6)]%Z) in
  update_array 3 100 s = Throw IndexError
  ∧ ∃ s' s'',
      update_array (-1) 100 s = Return (tt, s')
      ∧ array s' = <[Z.to_nat (-1 + 3) := 100%Z]> (array s)
      ∧ lru s' = lru s
      ∧ cached_query 0 2 s'
        = Return (VInt (range_sum_no_cache (array s) 0 2), s'').
Proof.
  intros s. destruct update_array_index_edges as [Hout Hneg]. split.
  - apply Hout. simpl. lia.
  - apply (Hneg s (-1)%Z 100%Z 0%Z 2%Z).
    + unfold wf, keys. simpl. compute_done.
    + unfold coherent. simpl. repeat constructor.
    + unfold valid_keys. simpl. repeat constructor; simpl; lia.
    + simpl. lia.
    + unfold keys. simpl. compute_done.
Defined.

(** * Further properties of the LRU cache *)

Section lru_more.
Context {K : Type} `{EqDecision K}.
Implicit Types (self : LRUCache K) (d : odict K) (key k : K) (v : value).

Lemma od_find_remove_ne key k d :
  k ≠ key → od_find k (od_remove key d) = od_find k d.
Proof.
  intros Hne. induction d as [|[k0 v0] d IH]; simpl; [done|].
  destruct (decide (k0 = key)) as [->|Hk0]; simpl.
  - by rewrite decide_False.
  - destruct (decide (k0 = k)); [done | apply IH].
Qed.

Lemma od_find_snoc_ne key k v d :
  k ≠ key → od_find k (d ++ [(key, v)]) = od_find k d.
Proof.
  intros Hne. induction d as [|[k0 v0] d IH]; simpl.
  - by rewrite decide_False.
  - destruct (decide (k0 = k)); [done | apply IH].
Qed.

(** Reading the most recently used key changes nothing. *)
Lemma get_most_recent key v d (capacity : Z) :
  key ∉ keys d →
  get key (mkLRUCache capacity (d ++ [(key, v)]))
    = Ok (v, mkLRUCache capacity (d ++ [(key, v)])).
Proof.
  intros Hk.
  assert (Hwf' : NoDup (keys d) → wf (mkLRUCache capacity (d ++ [(key, v)]))).
  { intros Hnd. unfold wf. simpl. by apply NoDup_keys_snoc. }
  unfold get, on_cache, od_contains, od_move_to_end, od_getitem.
  prog_unfold. simpl.
  rewrite bool_decide_eq_true_2; simpl.
  - rewrite od_find_snoc by done. simpl.
    rewrite od_remove_snoc by done. by rewrite od_find_snoc.
  - rewrite keys_snoc. apply elem_of_app. right.
    by apply list_elem_of_singleton.
Qed.

(** After a [put] that returns, the cache ends with the entry put. *)
Lemma put_last key v self self' :
  wf self → put key v self = Ok (tt, self') →
  ∃ d, cache self' = d ++ [(key, v)] ∧ (key ∉ keys d)
       ∧ capacity self' = capacity self.
Proof.
  intros Hwf. rewrite put_spec by done. unfold wf in Hwf.
  case_bool_decide as Hin.
  - intros [= <-]. eexists. split; [done|].
    split; [by apply od_remove_gone | done].
  - destruct (capacity self <=? Z.of_nat (length (cache self)))%Z.
    + destruct (cache self) as [|[k0 v0] d'] eqn:Ed; [done|].
      intros [= <-]. eexists. split; [done|]. split; [|done].
      unfold keys in Hin. simpl in Hin.
      by apply not_elem_of_cons in Hin as [_ ?].
    + intros [= <-]. by eexists.
Qed.

Lemma keys_head_not_last (d : odict K) k0 v0 key :
  NoDup (keys d) → 2 ≤ length d →
  head d = Some (k0, v0) → last (keys d) = Some key → k0 ≠ key.
Proof.
  intros Hnd Hlen Hhead Hlast.
  apply head_Some in Hhead as [d' ->].
  destruct d' as [|kv1 d'']; [simpl in Hlen; lia|].
  unfold keys in *. simpl in *. apply NoDup_cons in Hnd as [Hk0 _].
  intros ->. apply Hk0. fold (fmap (M:=list) fst (kv1 :: d'')).
  apply last_Some_elem_of. by rewrite <- Hlast.
Qed.

(** With a capacity of at least 2, a [put] does not evict the most
    recently used key. *)
Lemma put_keeps_most_recent key k' v' self self' :
  wf self → (2 ≤ capacity self)%Z →
  last (keys (cache self)) = Some key →
  put k' v' self = Ok (tt, self') →
  key ∈ keys (cache self').
Proof.
  intros Hwf Hcap Hlast. rewrite put_spec by done. unfold wf in Hwf.
  assert (Hin0 : key ∈ keys (cache self)) by by apply last_Some_elem_of.
  case_bool_decide as Hin.
  - intros [= <-]. simpl. rewrite keys_snoc, elem_of_app.
    destruct (decide (key = k')) as [->|Hne].
    + right. by apply list_elem_of_singleton.
    + left. by apply od_remove_keys_ne.
  - destruct (Z.leb_spec (capacity self) (Z.of_nat (length (cache self))))
      as [Hfull|_].
    + destruct (cache self) as [|[k0 v0] d'] eqn:Ed; [done|].
      intros [= <-]. simpl. rewrite keys_snoc, elem_of_app. left.
      assert (k0 ≠ key).
      { eapply (keys_head_not_last ((k0, v0) :: d')); try done.
        simpl in *. lia. }
      unfold keys in Hin0. simpl in Hin0.
      apply elem_of_cons in Hin0 as [?|?]; [congruence | done].
    + intros [= <-]. simpl. rewrite keys_snoc, elem_of_app. by left.
Qed.

End lru_more.

(** X4. On a cache of positive capacity, [get(k)] right after [put(k, v)]
    returns [v] and leaves the cache as the [put] left it. *)
Theorem put_get_round_trip {K : Type} `{EqDecision K}
    (self : LRUCache K) (key : K) (v : value) :
  wf self → (1 ≤ capacity self)%Z →
  ∃ self',
    put key v self = Ok (tt, self')
    ∧ get key self' = Ok (v, self').
Proof.
  intros Hwf Hcap.
  destruct (put_ok key v self Hwf Hcap) as (self' & Hput & _).
  exists self'. split; [done|].
  destruct (put_last key v self self' Hwf Hput) as (d & Hd & Hk & _).
  destruct self' as [cap' d']. simpl in Hd. subst d'.
  by apply get_most_recent.
Qed.

Lemma put_get_round_trip_witness :
  ∃ self',
    put 3%Z (VInt 30) (mkLRUCache 2 [(1%Z, VInt 10); (2%Z, VInt 20)])
      = Ok (tt, self')
    ∧ get 3%Z self' = Ok (VInt 30, self').
Proof.
  apply put_get_round_trip.
  - unfold wf, keys. simpl. compute_done.
  - simpl. lia.
Defined.

(** X5. A [put] of [key] never changes the value stored under another key:
    afterwards every other key has the value it had, except that the least
    recently used key is gone when [key] was new and the cache was full. *)
Theorem put_preserves_other_keys {K : Type} `{EqDecision K}
    (self self' : LRUCache K) (key k : K) (v : value) :
  wf self → k ≠ key →
  put key v self = Ok (tt, self') →
  od_find k (cache self') = od_find k (cache self)
  ∨ ((key ∉ keys (cache self))
     ∧ (capacity self ≤ Z.of_nat (length (cache self)))%Z
     ∧ (∃ v0, head (cache self) = Some (k, v0))
     ∧ od_find k (cache self') = None).
Proof.
  intros Hwf Hne. rewrite put_spec by done. unfold wf in Hwf.
  case_bool_decide as Hin.
  - intros [= <-]. left. simpl.
    by rewrite od_find_snoc_ne, od_find_remove_ne.
  - destruct (Z.leb_spec (capacity self) (Z.of_nat (length (cache self))))
      as [Hfull|_].
    + destruct (cache self) as [|[k0 v0] d'] eqn:Ed; [done|].
      intros [= <-]. simpl. rewrite od_find_snoc_ne by done.
      destruct (decide (k0 = k)) as [->|Hk0]; [right | by left].
      split; [done|]. split; [done|]. split; [by eexists|].
      apply od_find_None. unfold keys in Hwf. simpl in Hwf.
      by apply NoDup_cons in Hwf as [? _].
    + intros [= <-]. left. simpl. by rewrite od_find_snoc_ne.
Qed.

Lemma put_preserves_other_keys_witness :
  od_find 2%Z [(2%Z, VInt 20); (3%Z, VInt 30)]
    = od_find 2%Z [(1%Z, VInt 10); (2%Z, VInt 20)]
  ∨ ((3%Z ∉ keys [(1%Z, VInt 10); (2%Z, VInt 20)])
     ∧ (2 ≤ Z.of_nat (length [(1%Z, VInt 10); (2%Z, VInt 20)]))%Z
     ∧ (∃ v0, head [(1%Z, VInt 10); (2%Z, VInt 20)] = Some (2%Z, v0))
     ∧ od_find 2%Z [(2%Z, VInt 20); (3%Z, VInt 30)] = None).
Proof.
  apply (put_preserves_other_keys
           (mkLRUCache 2 [(1%Z, VInt 10); (2%Z, VInt 20)])
           (mkLRUCache 2 [(2%Z, VInt 20); (3%Z, VInt 30)])
           3%Z 2%Z (VInt 30)).
  - unfold wf, keys. simpl. compute_done.
  - lia.
  - reflexivity.
Defined.

(** X6. With a capacity of at least 2, the key touched last, by a [put] or
    by a [get] that hits, is still present after the next [put] of any
    key. *)
Theorem most_recent_survives_next_put {K : Type} `{EqDecision K}
    (self : LRUCache K) (key k' : K) (v v' : value) :
  wf self → (2 ≤ capacity self)%Z →
  (∃ s1 s2,
     put key v self = Ok (tt, s1)
     ∧ put k' v' s1 = Ok (tt, s2)
     ∧ key ∈ keys (cache s2))
  ∧ (key ∈ keys (cache self) →
     ∃ v0 s1 s2,
       get key self = Ok (v0, s1)
       ∧ put k' v' s1 = Ok (tt, s2)
       ∧ key ∈ keys (cache s2)).
Proof.
  intros Hwf Hcap. split.
  - destruct (put_ok key v self Hwf) as (s1 & Hput & Hc1 & Hwf1 & _);
      [lia|].
    destruct (put_ok k' v' s1 Hwf1) as (s2 & Hput2 & _); [lia|].
    exists s1, s2. split; [done|]. split; [done|].
    destruct (put_last key v self s1 Hwf Hput) as (d & Hd & _ & _).
    eapply put_keeps_most_recent; [exact Hwf1 | lia | | exact Hput2].
    rewrite Hd, keys_snoc. apply last_snoc.
  - intros Hin. destruct (od_find_is_Some key _ Hin) as [v0 Hfind].
    pose proof (get_spec key self Hwf) as Hget. rewrite Hfind in Hget.
    destruct (get_ok key self Hwf) as (v1 & s1 & Hget' & Hc1 & Hwf1 & _).
    rewrite Hget in Hget'. injection Hget' as <- <-.
    destruct (put_ok k' v'
                (mkLRUCache (capacity self)
                   (od_remove key (cache self) ++ [(key, v0)])) Hwf1)
      as (s2 & Hput2 & _); [simpl; lia|].
    eexists v0, _, s2. split; [done|]. split; [done|].
    eapply put_keeps_most_recent; [exact Hwf1 | simpl; lia | | exact Hput2].
    simpl. rewrite keys_snoc. apply last_snoc.
Qed.

Lemma most_recent_survives_next_put_witness :
  ∃ s1 s2,
    put 1%Z (VInt 11) (mkLRUCache 2 [(1%Z, VInt 10); (2%Z, VInt 20)])
      = Ok (tt, s1)
    ∧ put 3%Z (VInt 30) s1 = Ok (tt, s2)
    ∧ 1%Z ∈ keys (cache s2).
Proof.
  apply (most_recent_survives_next_put
           (mkLRUCache 2 [(1%Z, VInt 10); (2%Z, VInt 20)])
           1%Z 3%Z (VInt 11) (VInt 30)).
  - unfold wf, keys. simpl. compute_done.
  - simpl. lia.
Defined.

Section cached_queries_more.
Variable arr : list Z.
Implicit Types (self : LRUCache (Z * Z)) (L R : Z).

(** After a query the cache ends with the queried range and the integer
    that was returned; without an eviction every earlier key is kept. *)
Lemma range_sum_with_cache_last L R self :
  wf self → (1 ≤ capacity self)%Z →
  ∃ n d,
    range_sum_with_cache arr L R self
      = Ok (VInt n, mkLRUCache (capacity self) (d ++ [((L, R), VInt n)]))
    ∧ ((L, R) ∉ keys d)
    ∧ NoDup (keys d)
    ∧ (∀ k, k ∈ keys d → k ∈ keys (cache self))
    ∧ (length d ≤ length (cache self))
    ∧ ((L, R) ∈ keys (cache self)
       ∨ (capacity self ≤ Z.of_nat (length (cache self)))%Z →
       S (length d) = length (cache self))
    ∧ ((L, R) ∈ keys (cache self)
       ∨ (Z.of_nat (length (cache self)) < capacity self)%Z →
       ∀ k, k ∈ keys (cache self) → k = (L, R) ∨ k ∈ keys d).
Proof.
  intros Hwf Hcap. unfold range_sum_with_cache.
  unfold mbind at 1, prog_bind at 1. rewrite get_spec by done.
  unfold wf in Hwf.
  assert (Hrem : ∀ k, k ∈ keys (cache self) →
                      k = (L, R) ∨ k ∈ keys (od_remove (L, R) (cache self))).
  { intros k Hk. destruct (decide (k = (L, R))); [by left|].
    right. by apply od_remove_keys_ne. }
  destruct (od_find (L, R) (cache self)) as [v|] eqn:E.
  - assert (Hin : (L, R) ∈ keys (cache self)).
    { apply od_find_Some in E. apply list_elem_of_fmap. by eexists (_, _). }
    pose proof (od_remove_length _ _ Hin) as Hlen.
    destruct v as [|n]; simpl.
    + unfold mbind, prog_bind. rewrite put_spec; simpl.
      2:{ unfold wf. simpl. by apply moved_wf. }
      rewrite bool_decide_eq_true_2.
      2:{ rewrite keys_snoc, elem_of_app. right.
          by apply list_elem_of_singleton. }
      rewrite od_remove_snoc by by apply od_remove_gone.
      eexists _, _. split; [done|].
      split; [by apply od_remove_gone|].
      split; [by apply od_remove_NoDup|].
      split; [intros k; apply od_remove_keys|].
      split; [lia|]. split; [done|]. intros _. exact Hrem.
    + eexists _, _. split; [done|].
      split; [by apply od_remove_gone|].
      split; [by apply od_remove_NoDup|].
      split; [intros k; apply od_remove_keys|].
      split; [lia|]. split; [done|]. intros _. exact Hrem.
  - apply od_find_None in E. simpl.
    unfold mbind, prog_bind. rewrite put_spec by done.
    rewrite bool_decide_eq_false_2 by done.
    destruct (Z.leb_spec (capacity self) (Z.of_nat (length (cache self))))
      as [Hfull|Hroom].
    + destruct (cache self) as [|[k0 v0] d'] eqn:Ed; [simpl in *; lia|].
      simpl. eexists _, _. split; [done|].
      unfold keys in *. simpl in *.
      apply NoDup_cons in Hwf as [_ Hnd].
      apply not_elem_of_cons in E as [Hne E].
      split; [done|]. split; [done|].
      split; [intros k Hk; apply elem_of_cons; by right|].
      split; [lia|]. split; [done|].
      intros [Hin|?]; [|lia].
      apply elem_of_cons in Hin as [?|?]; [congruence | done].
    + simpl. eexists _, _. split; [done|].
      split; [done|]. split; [done|]. split; [done|].
      split; [lia|]. split; [intros [?|?]; [done | lia]|].
      intros _ k Hk. by right.
Qed.

End cached_queries_more.

(** X7. On a cache of positive capacity, asking the same range twice in a
    row returns the same integer both times, and the second call leaves the
    cache exactly as the first one left it. *)
Theorem repeated_query_is_a_hit (arr : list Z) (L R : Z)
    (self : LRUCache (Z * Z)) :
  wf self → (1 ≤ capacity self)%Z →
  ∃ n s1,
    range_sum_with_cache arr L R self = Ok (VInt n, s1)
    ∧ range_sum_with_cache arr L R s1 = Ok (VInt n, s1).
Proof.
  intros Hwf Hcap.
  destruct (range_sum_with_cache_last arr L R self Hwf Hcap)
    as (n & d & Hq & Hk & _).
  eexists n, _. split; [exact Hq|].
  unfold range_sum_with_cache. unfold mbind at 1, prog_bind at 1.
  by rewrite get_most_recent.
Qed.

Lemma repeated_query_is_a_hit_witness :
  ∃ n s1,
    range_sum_with_cache [1; 2; 3; 4; 5]%Z 1 3
      (mkLRUCache 2 [((0, 0), VInt 1); ((2, 4), VInt 12)]%Z)
      = Ok (VInt n, s1)
    ∧ range_sum_with_cache [1; 2; 3; 4; 5]%Z 1 3 s1 = Ok (VInt n, s1).
Proof.
  apply repeated_query_is_a_hit.
  - unfold wf, keys. simpl. compute_done.
  - simpl. lia.
Defined.

Section cache_occupancy.
Variable arr : list Z.
Implicit Types (self : LRUCache (Z * Z)) (seen qs : list (Z * Z)).

(** A list of distinct keys drawn from [seen] that is complete whenever it
    is shorter than [cap] has [min(cap, number of distinct seen)] keys. *)
Lemma occupancy_count (ks seen : list (Z * Z)) (cap : nat) :
  NoDup ks → (∀ k, k ∈ ks → k ∈ seen) → length ks ≤ cap →
  (length ks < cap → ∀ k, k ∈ seen → k ∈ ks) →
  length ks = Nat.min cap (size (list_to_set seen : gset (Z * Z))).
Proof.
  intros Hnd Hsub Hcap Hfull.
  rewrite <- (size_list_to_set (C:=gset (Z * Z)) ks) in * by done.
  assert (size (list_to_set ks : gset (Z * Z))
          ≤ size (list_to_set seen : gset (Z * Z))) as Hle.
  { apply subseteq_size. intros k. rewrite !elem_of_list_to_set. apply Hsub. }
  destruct (decide (size (list_to_set ks : gset (Z * Z)) < cap)) as [Hlt|Hge];
    [|lia].
  assert (size (list_to_set seen : gset (Z * Z))
          ≤ size (list_to_set ks : gset (Z * Z))).
  { apply subseteq_size. intros k. rewrite !elem_of_list_to_set.
    by apply Hfull. }
  lia.
Qed.

Lemma results_with_cache_occupancy qs : ∀ seen self,
  wf self → (1 ≤ capacity self)%Z →
  (Z.of_nat (length (cache self)) ≤ capacity self)%Z →
  (∀ k, k ∈ keys (cache self) → k ∈ seen) →
  ((Z.of_nat (length (cache self)) < capacity self)%Z →
   ∀ k, k ∈ seen → k ∈ keys (cache self)) →
  ∃ vs self',
    results_with_cache arr qs self = Ok (vs, self')
    ∧ capacity self' = capacity self
    ∧ NoDup (keys (cache self'))
    ∧ (Z.of_nat (length (cache self')) ≤ capacity self)%Z
    ∧ (∀ k, k ∈ keys (cache self') → k ∈ seen ++ qs)
    ∧ ((Z.of_nat (length (cache self')) < capacity self)%Z →
       ∀ k, k ∈ seen ++ qs → k ∈ keys (cache self')).
Proof.
  unfold results_with_cache.
  induction qs as [|[L R] qs IH]; intros seen self Hwf Hcap Hlen Hsub Hall;
    simpl.
  - exists [], self. rewrite app_nil_r. by repeat split.
  - destruct (range_sum_with_cache_last arr L R self Hwf Hcap)
      as (n & d & Hq & Hk & Hnd & Hd & Hdlen & Hsame & Hkeep).
    assert (∃ self1,
              self1 = mkLRUCache (capacity self) (d ++ [((L, R), VInt n)])
              ∧ capacity self1 = capacity self
              ∧ cache self1 = d ++ [((L, R), VInt n)])
      as (self1 & Hself1 & Hc1 & Hd1) by (by eexists).
    rewrite <- Hself1 in Hq.
    assert (Hlen1 : length (cache self1) = S (length d)).
    { rewrite Hd1, length_app. simpl. lia. }
    clear Hself1.
    assert (Hlen1' : (Z.of_nat (length (cache self1)) ≤ capacity self)%Z).
    { rewrite Hlen1.
      destruct (decide ((L, R) ∈ keys (cache self))) as [Hin|Hnin];
        [rewrite Hsame by (by left); lia|].
      destruct (Z.le_gt_cases (capacity self)
                  (Z.of_nat (length (cache self)))) as [Hfull|Hroom];
        [rewrite Hsame by (by right); lia | lia]. }
    destruct (IH (seen ++ [(L, R)]) self1)
      as (vs & self' & Hrest & Hc' & Hnd' & Hlen' & Hsub' & Hall').
    + unfold wf. rewrite Hd1. by apply NoDup_keys_snoc.
    + by rewrite Hc1.
    + by rewrite Hc1.
    + intros k. rewrite Hd1, keys_snoc, !elem_of_app.
      intros [Hkd|Hkq]; [left; by apply Hsub, Hd | by right].
    + rewrite Hc1. intros Hlt k. rewrite Hd1, keys_snoc, !elem_of_app.
      rewrite Hlen1 in Hlt.
      assert (Hroom : (Z.of_nat (length (cache self)) < capacity self)%Z).
      { destruct (Z.le_gt_cases (capacity self)
                    (Z.of_nat (length (cache self)))) as [Hfull|?]; [|lia].
        rewrite Hsame in Hlt by (by right). lia. }
      intros [Hks|Hkq]; [|by right].
      destruct (Hkeep (or_intror Hroom) k (Hall Hroom k Hks)) as [->|?].
      * right. by apply list_elem_of_singleton.
      * by left.
    + exists (VInt n :: vs), self'.
      unfold mbind, prog_bind in *. rewrite Hq, Hrest. rewrite Hc1 in *.
      split; [done|]. split; [done|]. split; [done|]. split; [done|].
      rewrite <- app_assoc in Hsub', Hall'. simpl in Hsub', Hall'.
      by split.
Qed.

End cache_occupancy.

(** X8. After answering a list of queries through a newly constructed cache
    of capacity at least 1, the cache holds [min(capacity, d)] entries,
    where [d] is the number of distinct queries asked. *)
Theorem cache_size_after_queries (arr : list Z) (queries : list (Z * Z))
    (capacity : Z) :
  (1 ≤ capacity)%Z →
  ∃ vs self',
    run_from (LRUCache_init capacity) (results_with_cache arr queries)
      = Ok (vs, self')
    ∧ len self'
      = Ok (Z.min capacity
              (Z.of_nat (size (list_to_set queries : gset (Z * Z)))),
            self').
Proof.
  intros Hcap. simpl.
  destruct (results_with_cache_occupancy arr queries []
              (mkLRUCache capacity []))
    as (vs & self' & Hrun & Hc' & Hnd & Hlen & Hsub & Hall); simpl.
  - unfold wf. simpl. constructor.
  - done.
  - lia.
  - intros k Hk. by apply elem_of_nil in Hk.
  - intros _ k Hk. by apply elem_of_nil in Hk.
  - simpl in *. exists vs, self'. split; [done|]. rewrite len_spec.
    do 2 f_equal.
    assert (Hlen' : length (keys (cache self')) = length (cache self')).
    { unfold keys. apply length_fmap. }
    pose proof (occupancy_count (keys (cache self')) queries
                  (Z.to_nat capacity) Hnd Hsub) as Hocc.
    rewrite Hlen' in Hocc. rewrite Hocc.
    + lia.
    + lia.
    + intros Hlt. apply Hall. lia.
Qed.

Lemma cache_size_after_queries_witness :
  ∃ vs self',
    run_from (LRUCache_init 2)
      (results_with_cache [3; 1; 4; 1; 5]%Z
         [(0, 2); (1, 3); (0, 2); (2, 4); (4, 4); (0, 2)]%Z)
      = Ok (vs, self')
    ∧ len self'
      = Ok (Z.min 2
              (Z.of_nat
                 (size (list_to_set
                          [(0, 2); (1, 3); (0, 2); (2, 4); (4, 4); (0, 2)]%Z
                        : gset (Z * Z)))),
            self').
Proof.
  apply cache_size_after_queries. lia.
Defined.

(** * The test data generator *)

Import TestData.

Section generator_facts.

Lemma py_range_length (n : Z) : length (py_range n) = Z.to_nat n.
Proof. unfold py_range. by rewrite length_fmap, length_seq. Qed.

Lemma py_range_positive (n : Z) :
  (1 ≤ n)%Z → ∃ l, py_range n = 0%Z :: l.
Proof.
  intros Hn. unfold py_range.
  destruct (Z.to_nat n) as [|m] eqn:E; [lia|]. simpl. by eexists.
Qed.

Lemma py_range_empty (n : Z) : (n ≤ 0)%Z → py_range n = [].
Proof.
  intros Hn. unfold py_range. by replace (Z.to_nat n) with 0%nat by lia.
Qed.

(** A comprehension whose body always returns a value satisfying [P]
    returns as many values as it was given items, all satisfying [P]. *)
Lemma collect_ok {S A B} (P : B → Prop) (body : A → script S B) :
  (∀ x g, ∃ y g', body x g = Return (y, g') ∧ P y) →
  ∀ xs g, ∃ ys g',
    collect xs body g = Return (ys, g')
    ∧ length ys = length xs ∧ Forall P ys.
Proof.
  intros Hbody. induction xs as [|x xs IH]; intros g; simpl.
  - by exists [], g.
  - destruct (Hbody x g) as (y & g1 & Hy & HP).
    destruct (IH g1) as (ys & g' & Hys & Hlen & Hall).
    exists (y :: ys), g'. unfold mbind, script_bind in *.
    rewrite Hy, Hys. split; [done|]. split; [simpl; lia | by constructor].
Qed.

Lemma bind_return {S A B} (m : script S A) (f : A → script S B) g a g' :
  m g = Return (a, g') → (m ≫= f) g = f a g'.
Proof. intros Hm. unfold mbind, script_bind. by rewrite Hm. Qed.

Lemma bind_throw {S A B} (m : script S A) (f : A → script S B) g e :
  m g = Throw e → (m ≫= f) g = Throw e.
Proof. intros Hm. unfold mbind, script_bind. by rewrite Hm. Qed.

Lemma replay_laws : random_laws replay.
Proof.
  split; simpl.
  - intros a b g Hab. unfold replay_randint.
    destruct (Z.ltb_spec b a); [lia|]. eexists _, _. split; [done|].
    pose proof (Z.mod_pos_bound (Z.of_nat (hd 0%nat g)) (b - a + 1)). lia.
  - intros a b g Hab. unfold replay_randint.
    destruct (Z.ltb_spec b a); [done | lia].
  - intros l g Hl. destruct l as [|q l]; [done|]. unfold replay_choice.
    eexists _, _. split; [done|]. apply list_elem_of_In, nth_In.
    apply Nat.mod_upper_bound. simpl. lia.
  - done.
Qed.

Lemma distinct_at_most_pool (pool queries : list (Z * Z)) :
  Forall (λ q, q ∈ pool) queries →
  size (list_to_set queries : gset (Z * Z)) ≤ length pool.
Proof.
  intros Hall.
  transitivity (size (list_to_set pool : gset (Z * Z))).
  - apply subseteq_size. intros q. rewrite !elem_of_list_to_set.
    rewrite Forall_forall in Hall. apply Hall.
  - clear. induction pool as [|q pool IH].
    + change (list_to_set [] : gset (Z * Z)) with (∅ : gset (Z * Z)).
      by rewrite size_empty.
    + rewrite list_to_set_cons, size_union_alt, size_singleton.
      pose proof (subseteq_size (list_to_set pool ∖ {[q]})
                    (list_to_set pool : gset (Z * Z))) as Hd.
      specialize (Hd ltac:(set_solver)). simpl. lia.
Qed.

End generator_facts.

(** X9. For an array size of at least 1 and at least 10 queries, whatever
    the random source returns, [generate_test_data] returns an array of
    [array_size] integers in [1 .. 1000] and [num_queries] queries with
    [0 <= L <= R < array_size], of which at most [min(1000, num_queries // 10)]
    are distinct. *)
Theorem generated_data_well_formed (rnd : random_module)
    (array_size num_queries : Z) (g : rng rnd) :
  random_laws rnd → (1 ≤ array_size)%Z → (10 ≤ num_queries)%Z →
  ∃ array queries g',
    generate_test_data rnd array_size num_queries g
      = Return ((array, queries), g')
    ∧ Z.of_nat (length array) = array_size
    ∧ Forall (λ x, (1 ≤ x ≤ 1000)%Z) array
    ∧ Z.of_nat (length queries) = num_queries
    ∧ Forall (λ q, (0 ≤ q.1 ∧ q.1 ≤ q.2 ∧ q.2 < array_size)%Z) queries
    ∧ (Z.of_nat (size (list_to_set queries : gset (Z * Z)))
       ≤ Z.min 1000 (num_queries `div` 10))%Z.
Proof.
  intros Hlaws Hsize Hnum. unfold generate_test_data.
  destruct (collect_ok (λ x, (1 ≤ x ≤ 1000)%Z)
              (λ _ : Z, randint rnd 1 1000)
              (λ _ g0, randint_range rnd Hlaws 1 1000 g0 ltac:(lia))
              (py_range array_size) g)
    as (array & g1 & Harr & Hlen1 & Hall1).
  destruct (collect_ok (λ q : Z * Z, (0 ≤ q.1 ∧ q.1 ≤ q.2 ∧ q.2 < array_size)%Z)
              (λ _ : Z, a ← randint rnd 0 (array_size - 1);
                        b ← randint rnd 0 (array_size - 1);
                        mret (Z.min a b, Z.max a b))) with
    (xs := py_range (Z.min 1000 (num_queries `div` 10))) (g := g1)
    as (pool & g2 & Hpool & Hlen2 & Hall2).
  { intros _ g0.
    destruct (randint_range rnd Hlaws 0 (array_size - 1) g0)
      as (a & ga & Ha & Hra); [lia|].
    destruct (randint_range rnd Hlaws 0 (array_size - 1) ga)
      as (b & gb & Hb & Hrb); [lia|].
    exists (Z.min a b, Z.max a b), gb. unfold mbind, script_bind.
    rewrite Ha, Hb. split; [done|]. simpl. lia. }
  assert (Hq10 : (1 ≤ num_queries `div` 10)%Z).
  { apply Z.div_le_lower_bound; lia. }
  assert (Hne : pool ≠ []).
  { intros ->. simpl in Hlen2. rewrite py_range_length in Hlen2. lia. }
  destruct (collect_ok (λ q : Z * Z, q ∈ pool)
              (λ _ : Z, choice rnd pool)
              (λ _ g0, choice_member rnd Hlaws pool g0 Hne)
              (py_range num_queries) g2)
    as (queries & g3 & Hqs & Hlen3 & Hall3).
  exists array, queries, g3.
  rewrite (bind_return _ _ _ _ _ Harr). cbv beta zeta.
  rewrite (bind_return _ _ _ _ _ Hpool). cbv beta.
  rewrite (bind_return _ _ _ _ _ Hqs). split; [done|].
  rewrite py_range_length in Hlen1, Hlen2, Hlen3.
  split; [lia|]. split; [done|]. split; [lia|]. split.
  - rewrite Forall_forall in *. intros q Hq. by apply Hall2, Hall3.
  - pose proof (distinct_at_most_pool pool queries Hall3). lia.
Qed.

Lemma generated_data_well_formed_witness :
  ∃ array queries g',
    generate_test_data replay 5 12 [7; 1001; 3; 4; 2; 9; 0; 5]%nat
      = Return ((array, queries), g')
    ∧ Z.of_nat (length array) = 5%Z
    ∧ Forall (λ x, (1 ≤ x ≤ 1000)%Z) array
    ∧ Z.of_nat (length queries) = 12%Z
    ∧ Forall (λ q, (0 ≤ q.1 ∧ q.1 ≤ q.2 ∧ q.2 < 5)%Z) queries
    ∧ (Z.of_nat (size (list_to_set queries : gset (Z * Z)))
       ≤ Z.min 1000 (12 `div` 10))%Z.
Proof.
  apply (generated_data_well_formed replay 5 12).
  - exact replay_laws.
  - lia.
  - lia.
Defined.

(** X10. With between 1 and 9 queries requested the pool of unique queries
    is empty ([num_queries // 10] is 0), and [generate_test_data] raises
    [IndexError] from [random.choice], whatever the array size. *)
Theorem generate_few_queries_raises (rnd : random_module)
    (array_size num_queries : Z) (g : rng rnd) :
  random_laws rnd → (1 ≤ num_queries ≤ 9)%Z →
  generate_test_data rnd array_size num_queries g = Throw IndexError.
Proof.
  intros Hlaws Hnum. unfold generate_test_data.
  destruct (collect_ok (λ x, (1 ≤ x ≤ 1000)%Z)
              (λ _ : Z, randint rnd 1 1000)
              (λ _ g0, randint_range rnd Hlaws 1 1000 g0 ltac:(lia))
              (py_range array_size) g)
    as (array & g1 & Harr & _).
  rewrite (bind_return _ _ _ _ _ Harr). cbv beta zeta.
  replace (num_queries `div` 10)%Z with 0%Z
    by (symmetry; apply Z.div_small; lia).
  rewrite (py_range_empty (Z.min 1000 0)) by lia.
  rewrite (bind_return _ _ g1 [] g1) by done. cbv beta.
  destruct (py_range_positive num_queries) as (l & ->); [lia|].
  apply bind_throw. simpl. apply bind_throw. apply (choice_empty rnd Hlaws).
Qed.

Lemma generate_few_queries_raises_witness :
  generate_test_data replay 100 9 [4; 8; 15; 16; 23; 42]%nat
    = Throw IndexError.
Proof.
  apply generate_few_queries_raises; [exact replay_laws | lia].
Defined.

(** X11. With an array size of at most 0 and at least 10 queries requested,
    [generate_test_data] raises [ValueError]: the first bound of the pool
    is drawn by [random.randint] from the empty range [0 .. array_size - 1]. *)
Theorem generate_empty_array_raises (rnd : random_module)
    (array_size num_queries : Z) (g : rng rnd) :
  random_laws rnd → (array_size ≤ 0)%Z → (10 ≤ num_queries)%Z →
  generate_test_data rnd array_size num_queries g
    = Throw (Builtin ValueError).
Proof.
  intros Hlaws Hsize Hnum. unfold generate_test_data.
  rewrite (py_range_empty array_size) by done.
  rewrite (bind_return _ _ g [] g) by done. cbv beta zeta.
  assert (Hq10 : (1 ≤ num_queries `div` 10)%Z).
  { apply Z.div_le_lower_bound; lia. }
  destruct (py_range_positive (Z.min 1000 (num_queries `div` 10)))
    as (l & ->); [lia|].
  apply bind_throw. simpl. apply bind_throw. apply bind_throw.
  apply (randint_empty rnd Hlaws). lia.
Qed.

Lemma generate_empty_array_raises_witness :
  generate_test_data replay 0 50 [1; 2; 3]%nat = Throw (Builtin ValueError).
Proof.
  apply generate_empty_array_raises; [exact replay_laws | lia | lia].
Defined.

(** * Further facts about the rate limiter *)

Section limiter_more.
Implicit Types (w : world) (u : string) (l : list float)
  (c : Limiter.call).

(** The two shapes of the world after a call that returns: the user's list
    was pruned, or it was pruned and one clock reading was appended. *)
Lemma limiter_call_shape c w w' :
  Limiter.do_call c w = Ok (tt, w') →
  let u := user_of c in
  let now := clock w (ticks w) in
  let kept := retained (now - window_size (limiter w))%float (stored u w) in
  clock w' = clock w
  ∧ window_size (limiter w') = window_size (limiter w)
  ∧ max_messages (limiter w') = max_messages (limiter w)
  ∧ (∀ u', u' ≠ u →
       user_messages (limiter w') !! u' = user_messages (limiter w) !! u')
  ∧ ((ticks w' = S (ticks w)
      ∧ user_messages (limiter w') !! u = Some kept)
     ∨ (ticks w' = S (S (ticks w))
        ∧ user_messages (limiter w') !! u
          = Some (kept ++ [clock w (S (ticks w))])
        ∧ (Z.of_nat (length kept) < max_messages (limiter w))%Z)).
Proof.
  assert (Hpruned : ∀ u n,
    let w1 := mkWorld (clock w) n (pruned u (clock w (ticks w)) (limiter w)) in
    clock w1 = clock w
    ∧ window_size (limiter w1) = window_size (limiter w)
    ∧ max_messages (limiter w1) = max_messages (limiter w)
    ∧ (∀ u', u' ≠ u →
         user_messages (limiter w1) !! u' = user_messages (limiter w) !! u')
    ∧ user_messages (limiter w1) !! u
      = Some (retained (clock w (ticks w) - window_size (limiter w))%float
                (stored u w))).
  { intros u n. simpl. split; [done|]. split; [done|]. split; [done|].
    split; [intros u' Hne; by rewrite lookup_insert_ne|].
    by rewrite lookup_insert_eq. }
  destruct c as [u|u|u|u]; simpl; unfold mbind, prog_bind.
  - rewrite can_send_message_spec. simpl. intros [= <-].
    destruct (Hpruned u (S (ticks w))) as (? & ? & ? & ? & ?).
    repeat (split; [done|]). left. by split.
  - rewrite record_message_spec. simpl.
    destruct (Z.ltb_spec
                (Z.of_nat
                   (length
                      (retained
                         (clock w (ticks w) - window_size (limiter w))%float
                         (stored u w))))
                (max_messages (limiter w))) as [Hroom|_];
      intros [= <-]; simpl.
    + split; [done|]. split; [done|]. split; [done|].
      split; [intros u' Hne; by rewrite !lookup_insert_ne|].
      right. split; [done|]. split; [by rewrite lookup_insert_eq | done].
    + destruct (Hpruned u (S (ticks w))) as (? & ? & ? & ? & ?).
      repeat (split; [done|]). left. by split.
  - rewrite time_until_next_allowed_spec. simpl.
    destruct (_ <? _)%Z; [|destruct (py_min _)]; intros [= <-];
      destruct (Hpruned u (S (ticks w))) as (? & ? & ? & ? & ?);
      repeat (split; [done|]); left; by split.
  - rewrite get_message_count_spec. simpl. intros [= <-].
    destruct (Hpruned u (S (ticks w))) as (? & ? & ? & ? & ?).
    repeat (split; [done|]). left. by split.
Qed.

Lemma calls_isolated (cs : list Limiter.call) u : ∀ w w',
  for_each cs Limiter.do_call w = Ok (tt, w') →
  Forall (λ c, user_of c ≠ u) cs →
  user_messages (limiter w') !! u = user_messages (limiter w) !! u
  ∧ window_size (limiter w') = window_size (limiter w)
  ∧ max_messages (limiter w') = max_messages (limiter w).
Proof.
  induction cs as [|c cs IH]; intros w w'; simpl.
  - by intros [= <-].
  - unfold mbind, prog_bind.
    destruct (Limiter.do_call c w) as [[[] w1]|e] eqn:Hc; [|done].
    intros Hrest [Hne Hall]%Forall_cons.
    destruct (IH w1 w' Hrest Hall) as (Hum & Hws & Hmm).
    destruct (limiter_call_shape c w w1 Hc) as (_ & Hws1 & Hmm1 & Hoth & _).
    rewrite Hum, Hws, Hmm. split; [|done]. apply Hoth. congruence.
Qed.

End limiter_more.

(** X12. Calls made for other users never affect a user: after any sequence
    of calls none of which is about [u], the list stored for [u] and the
    limiter's window and limit are what they were, so the next
    [can_send_message(u)] gives the answer it would have given without
    them at the same clock reading. *)
Theorem multi_user_isolation (cs : list Limiter.call) (u : string)
    (w w' : world) :
  for_each cs Limiter.do_call w = Ok (tt, w') →
  Forall (λ c, user_of c ≠ u) cs →
  stored u w' = stored u w
  ∧ user_messages (limiter w') !! u = user_messages (limiter w) !! u
  ∧ window_size (limiter w') = window_size (limiter w)
  ∧ max_messages (limiter w') = max_messages (limiter w)
  ∧ (clock w' (ticks w') = clock w (ticks w) →
     returned (can_send_message u w') = returned (can_send_message u w)).
Proof.
  intros Hrun Hall.
  destruct (calls_isolated cs u w w' Hrun Hall) as (Hum & Hws & Hmm).
  assert (Hst : stored u w' = stored u w) by (unfold stored; by rewrite Hum).
  split; [done|]. split; [done|]. split; [done|]. split; [done|].
  intros Hnow. rewrite !can_send_message_spec. simpl.
  by rewrite Hst, Hws, Hmm, Hnow.
Qed.

Lemma multi_user_isolation_witness :
  let w := mkWorld (clock_of [0; 1; 2; 3; 4; 5]%float) 0
             (mkLimiter 10 1 {["b"%string := [0%float]]}) in
  ∃ w',
    for_each [CallRecord "a"; CallCanSend "a"; CallGetCount "c"]
      Limiter.do_call w = Ok (tt, w')
    ∧ stored "b" w' = stored "b" w
    ∧ user_messages (limiter w') !! "b"%string
      = user_messages (limiter w) !! "b"%string
    ∧ window_size (limiter w') = window_size (limiter w)
    ∧ max_messages (limiter w') = max_messages (limiter w)
    ∧ (clock w' (ticks w') = clock w (ticks w) →
       returned (can_send_message "b" w')
       = returned (can_send_message "b" w)).
Proof.
  intros w.
  destruct (for_each [CallRecord "a"; CallCanSend "a"; CallGetCount "c"]
              Limiter.do_call w) as [[[] w']|e] eqn:Hrun.
  - exists w'. split; [done|].
    apply (multi_user_isolation
             [CallRecord "a"; CallCanSend "a"; CallGetCount "c"] "b" w w'
             Hrun).
    repeat constructor; simpl; discriminate.
  - vm_compute in Hrun. discriminate.
Defined.

(** X13. Every call registers its user: after a call about [u] the
    dictionary has an entry for [u], even when nothing was ever recorded
    for that user, and no call removes a user's entry. *)
Theorem users_are_registered (c : Limiter.call) (w w' : world) :
  Limiter.do_call c w = Ok (tt, w') →
  user_of c ∈ dom (user_messages (limiter w'))
  ∧ dom (user_messages (limiter w)) ⊆ dom (user_messages (limiter w')).
Proof.
  intros Hc.
  destruct (limiter_call_shape c w w' Hc) as (_ & _ & _ & Hoth & Hu).
  assert (Hsome : is_Some (user_messages (limiter w') !! user_of c)).
  { destruct Hu as [[_ ->]|[_ [-> _]]]; by eexists. }
  split; [by apply elem_of_dom|].
  intros u' Hu'. apply elem_of_dom.
  destruct (decide (u' = user_of c)) as [->|Hne]; [done|].
  rewrite Hoth by done. by apply elem_of_dom.
Qed.

Lemma users_are_registered_witness :
  let w := mkWorld (clock_of [7]%float) 0 (mkLimiter 10 1 ∅) in
  ∃ w',
    Limiter.do_call (CallCanSend "ghost") w = Ok (tt, w')
    ∧ "ghost"%string ∈ dom (user_messages (limiter w'))
    ∧ dom (user_messages (limiter w)) ⊆ dom (user_messages (limiter w')).
Proof.
  intros w.
  destruct (Limiter.do_call (CallCanSend "ghost") w) as [[[] w']|e] eqn:Hc.
  - exists w'. split; [done|].
    apply (users_are_registered (CallCanSend "ghost") w w' Hc).
  - vm_compute in Hc. discriminate.
Defined.

(** X14. A user the limiter has never seen is treated as having sent
    nothing: with a limit of at least 1, [can_send_message] returns true,
    [get_message_count] returns 0, [time_until_next_allowed] returns 0.0 and
    [record_message] returns true and stores its second clock reading. *)
Theorem unknown_user_is_allowed (w : world) (u : string) :
  user_messages (limiter w) !! u = None →
  (1 ≤ max_messages (limiter w))%Z →
  (∃ w', can_send_message u w = Ok (true, w') ∧ stored u w' = [])
  ∧ (∃ w', get_message_count u w = Ok (0%Z, w'))
  ∧ (∃ w', time_until_next_allowed u w = Ok (0%float, w'))
  ∧ (∃ w', record_message u w = Ok (true, w')
           ∧ stored u w' = [clock w (S (ticks w))]).
Proof.
  intros Hnone Hmax.
  assert (Hst : stored u w = []) by (unfold stored; by rewrite Hnone).
  assert (Hlt : (Z.of_nat 0 <? max_messages (limiter w))%Z = true)
    by (apply Z.ltb_lt; lia).
  split; [|split; [|split]].
  - rewrite can_send_message_spec. simpl. rewrite Hst. simpl. rewrite Hlt.
    eexists. split; [done|]. rewrite stored_pruned, decide_True by done.
    by rewrite Hnone.
  - rewrite get_message_count_spec. simpl. rewrite Hst. simpl. by eexists.
  - rewrite time_until_next_allowed_spec. simpl. rewrite Hst. simpl.
    rewrite Hlt. by eexists.
  - rewrite record_message_spec. simpl. rewrite Hst. simpl. rewrite Hlt.
    eexists. split; [done|]. unfold stored. simpl.
    by rewrite lookup_insert_eq.
Qed.

Lemma unknown_user_is_allowed_witness :
  ∃ w',
    record_message "new"
      (mkWorld (clock_of [4; 5]%float) 0
         (mkLimiter 10 1 {["old"%string := [0%float]]}))
      = Ok (true, w')
    ∧ stored "new" w' = [5%float].
Proof.
  refine (proj2 (proj2 (proj2
            (unknown_user_is_allowed
               (mkWorld (clock_of [4; 5]%float) 0
                  (mkLimiter 10 1 {["old"%string := [0%float]]}))
               "new" _ _)))).
  - reflexivity.
  - simpl. lia.
Defined.

(** X15. At the same clock reading the three read-only methods agree:
    with a limit of at least 1 they leave the same limiter,
    [can_send_message] is true exactly when the count returned by
    [get_message_count] is below the limit, and in that case
    [time_until_next_allowed] returns 0.0. *)
Theorem queries_agree (w : world) (u : string) :
  (1 ≤ max_messages (limiter w))%Z →
  ∃ b n r w',
    can_send_message u w = Ok (b, w')
    ∧ get_message_count u w = Ok (n, w')
    ∧ time_until_next_allowed u w = Ok (r, w')
    ∧ n = Z.of_nat (length (stored u w'))
    ∧ b = (n <? max_messages (limiter w))%Z
    ∧ (b = true → r = 0%float).
Proof.
  intros Hmax.
  destruct (time_until_next_allowed_ok u w Hmax) as [r Hr].
  rewrite can_send_message_spec, get_message_count_spec, Hr. simpl.
  eexists _, _, r, _. do 3 (split; [done|]).
  rewrite stored_pruned, decide_True by done. fold (stored u w).
  split; [done|]. split; [done|].
  intros Hb. rewrite time_until_next_allowed_spec in Hr. simpl in Hr.
  rewrite Hb in Hr. by injection Hr as <-.
Qed.

Lemma queries_agree_witness :
  let w := mkWorld (clock_of [3]%float) 0
             (mkLimiter 10 2 {["u"%string := [0%float]]}) in
  ∃ b n r w',
    can_send_message "u" w = Ok (b, w')
    ∧ get_message_count "u" w = Ok (n, w')
    ∧ time_until_next_allowed "u" w = Ok (r, w')
    ∧ n = Z.of_nat (length (stored "u" w'))
    ∧ b = (n <? 2)%Z
    ∧ (b = true → r = 0%float).
Proof.
  intros w. apply (queries_agree w "u"). simpl. lia.
Defined.

(** * Chronological order of the stored timestamps *)

Section chronology.
Implicit Types (w : world) (u : string) (l : list float).

Lemma leb_is_number x y :
  (x <=? y)%float = true → is_number x ∧ is_number y.
Proof.
  rewrite leb_spec. unfold is_number, SFleb, SFcompare.
  destruct (Prim2SF x) as [[]|[]| |[] ? ?], (Prim2SF y) as [[]|[]| |[] ? ?];
    simpl; intros; by split.
Qed.

Lemma monotone_le (clock : nat → float) (n m : nat) :
  monotone clock → n ≤ m → (clock n <=? clock m)%float = true.
Proof.
  intros Hmono Hle. induction Hle as [|m Hle IH].
  - apply leb_refl. by destruct (leb_is_number _ _ (Hmono n)).
  - eapply leb_trans; [exact IH | apply Hmono].
Qed.

Lemma chronological_retained cutoff l :
  chronological l → chronological (retained cutoff l).
Proof.
  unfold chronological, retained. induction l as [|t l IH]; simpl; [done|].
  rewrite StronglySorted_cons. intros [Hall Hl].
  destruct (cutoff <? t)%float; [|by apply IH].
  apply StronglySorted_cons. split; [|by apply IH].
  rewrite Forall_forall in *. intros y Hy. apply Hall.
  apply list_elem_of_In in Hy. apply filter_In in Hy as [Hy _].
  by apply list_elem_of_In.
Qed.

(** On a chronological list [min] returns the first element. *)
Lemma py_min_head t l : chronological (t :: l) → py_min (t :: l) = Ok t.
Proof.
  unfold chronological. rewrite StronglySorted_cons. intros [Hall _].
  simpl. f_equal. induction Hall as [|y l Hy _ IH]; simpl; [done|].
  by rewrite (leb_not_ltb _ _ Hy).
Qed.

(** A call on a chronological store of past clock readings leaves one. *)
Lemma limiter_call_chronological (c : Limiter.call) w w' :
  monotone (clock w) →
  (∀ u, chronological (stored u w)
        ∧ Forall (λ t, ∃ n, n < ticks w ∧ t = clock w n) (stored u w)) →
  Limiter.do_call c w = Ok (tt, w') →
  ∀ u, chronological (stored u w')
       ∧ Forall (λ t, ∃ n, n < ticks w' ∧ t = clock w' n) (stored u w').
Proof.
  intros Hmono Hinv Hc u.
  destruct (limiter_call_shape c w w' Hc) as (Hclock & _ & _ & Hoth & Hu).
  rewrite Hclock.
  assert (Hticks : ticks w < ticks w') by (destruct Hu as [[-> _]|[-> _]]; lia).
  assert (Hweaken : ∀ l,
    Forall (λ t, ∃ n, n < ticks w ∧ t = clock w n) l →
    Forall (λ t, ∃ n, n < ticks w' ∧ t = clock w n) l).
  { intros l Hl. eapply Forall_impl; [exact Hl|].
    intros t (n & Hn & ->). exists n. split; [lia | done]. }
  destruct (Hinv (user_of c)) as [Hsorted Hpast].
  assert (Hkept_past :
    Forall (λ t, ∃ n, n < ticks w ∧ t = clock w n)
      (retained (clock w (ticks w) - window_size (limiter w))%float
         (stored (user_of c) w))).
  { rewrite Forall_forall in *. intros t Ht. apply Hpast.
    unfold retained in Ht. apply list_elem_of_In, filter_In in Ht as [Ht _].
    by apply list_elem_of_In. }
  destruct (decide (u = user_of c)) as [->|Hne].
  - destruct Hu as [[Ht Hl]|[Ht [Hl _]]].
    + assert (stored (user_of c) w'
              = retained (clock w (ticks w) - window_size (limiter w))%float
                  (stored (user_of c) w)) as ->
        by (unfold stored at 1; by rewrite Hl).
      split; [by apply chronological_retained | by apply Hweaken].
    + assert (stored (user_of c) w'
              = retained (clock w (ticks w) - window_size (limiter w))%float
                  (stored (user_of c) w) ++ [clock w (S (ticks w))]) as ->
        by (unfold stored at 1; by rewrite Hl).
      split.
      * apply StronglySorted_app. split; [|split].
        -- intros x y Hx Hy. apply list_elem_of_singleton in Hy as ->.
           rewrite Forall_forall in Hkept_past.
           destruct (Hkept_past x Hx) as (n & Hn & ->).
           apply monotone_le; [done | lia].
        -- by apply chronological_retained.
        -- repeat constructor.
      * apply Forall_app. split; [by apply Hweaken|].
        apply Forall_singleton. exists (S (ticks w)). split; [lia | done].
  - unfold stored. rewrite Hoth by done. fold (stored u w).
    destruct (Hinv u) as [? ?]. split; [done | by apply Hweaken].
Qed.

Lemma limiter_calls_chronological (cs : list Limiter.call) : ∀ w,
  monotone (clock w) → (1 ≤ max_messages (limiter w))%Z →
  (∀ u, (Z.of_nat (length (stored u w)) ≤ max_messages (limiter w))%Z) →
  (∀ u, chronological (stored u w)
        ∧ Forall (λ t, ∃ n, n < ticks w ∧ t = clock w n) (stored u w)) →
  ∃ w',
    for_each cs Limiter.do_call w = Ok (tt, w')
    ∧ clock w' = clock w
    ∧ ∀ u, chronological (stored u w')
           ∧ Forall (λ t, ∃ n, n < ticks w' ∧ t = clock w n) (stored u w').
Proof.
  induction cs as [|c cs IH]; intros w Hmono Hmax Hcount Hinv; simpl.
  - by exists w.
  - destruct (limiter_call_ok c w Hmax Hcount) as (w1 & Hc & Hmm & Hcount1).
    pose proof (limiter_call_chronological c w w1 Hmono Hinv Hc) as Hinv1.
    destruct (limiter_call_shape c w w1 Hc) as (Hclock & _).
    destruct (IH w1) as (w' & Hrest & Hclock' & Hinv').
    + by rewrite Hclock.
    + by rewrite Hmm.
    + intros u. rewrite Hmm. apply Hcount1.
    + done.
    + exists w'. unfold mbind, prog_bind. rewrite Hc, Hrest.
      split; [done|]. split; [congruence|]. by rewrite <- Hclock.
Qed.

End chronology.

(** X16. With a clock that never runs backward and a limit of at least 1,
    after any sequence of calls on a newly constructed limiter every user's
    list is in chronological order and holds only past clock readings; so
    the [min] taken by [time_until_next_allowed] is the first element of the
    list. *)
Theorem stored_timestamps_chronological (clock : nat → float)
    (window_size : float) (max_messages : Z) (cs : list Limiter.call) :
  monotone clock → (1 ≤ max_messages)%Z →
  ∃ w',
    run_from (start clock window_size max_messages)
      (for_each cs Limiter.do_call) = Ok (tt, w')
    ∧ ∀ u,
        chronological (stored u w')
        ∧ Forall (λ t, ∃ n, n < ticks w' ∧ t = clock n) (stored u w')
        ∧ (∀ t l, stored u w' = t :: l → py_min (stored u w') = Ok t).
Proof.
  intros Hmono Hmax. simpl.
  destruct (limiter_calls_chronological cs
              (mkWorld clock 0 (mkLimiter window_size max_messages ∅)))
    as (w' & Hrun & _ & Hinv); simpl; try done.
  - intros u. unfold stored. simpl. rewrite lookup_empty. simpl. lia.
  - intros u. unfold stored. simpl. rewrite lookup_empty. simpl.
    split; constructor.
  - exists w'. split; [done|]. intros u. destruct (Hinv u) as [Hs Hp].
    split; [done|]. split; [done|].
    intros t l Hst. rewrite Hst in *. by apply py_min_head.
Qed.

Lemma stored_timestamps_chronological_witness :
  ∃ w',
    run_from (start (clock_of [0; 1; 2; 3]%float) 10 2)
      (for_each [CallRecord "u"; CallRecord "u"; CallTimeUntil "u"]
         Limiter.do_call) = Ok (tt, w')
    ∧ ∀ u,
        chronological (stored u w')
        ∧ Forall (λ t, ∃ n, n < ticks w' ∧ t = clock_of [0; 1; 2; 3]%float n)
            (stored u w')
        ∧ (∀ t l, stored u w' = t :: l → py_min (stored u w') = Ok t).
Proof.
  apply (stored_timestamps_chronological (clock_of [0; 1; 2; 3]%float) 10 2).
  - intros n. do 4 (destruct n as [|n]; [reflexivity|]).
    destruct n; reflexivity.
  - lia.
Defined.

(** * Filling the cache, and repeated invalidation *)

Section filling.
Context {K : Type} `{EqDecision K}.
Implicit Types (d kvs : odict K) (capacity : Z).

Lemma puts_fill kvs : ∀ d capacity,
  NoDup (keys (d ++ kvs)) → (1 ≤ capacity)%Z →
  (Z.of_nat (length d) ≤ capacity)%Z →
  for_each kvs (λ kv, put kv.1 kv.2) (mkLRUCache capacity d)
    = Ok (tt, mkLRUCache capacity
                (drop (length (d ++ kvs) - Z.to_nat capacity) (d ++ kvs))).
Proof.
  induction kvs as [|[k v] kvs IH]; intros d capacity Hnd Hcap Hlen; simpl.
  - rewrite app_nil_r. unfold mret, prog_ret.
    by replace (length d - Z.to_nat capacity) with 0 by lia.
  - assert (Hnd' : NoDup (keys ((d ++ [(k, v)]) ++ kvs)))
      by (by rewrite <- app_assoc).
    assert (Hd : NoDup (keys d) ∧ k ∉ keys d).
    { unfold keys in *. rewrite fmap_app in Hnd. simpl in Hnd.
      apply NoDup_app in Hnd as (Hd & Hdis & Hk).
      split; [done|]. intros Hin. apply (Hdis k Hin).
      apply elem_of_cons. by left. }
    destruct Hd as [Hd Hk].
    unfold mbind, prog_bind. rewrite put_spec by done. simpl.
    rewrite bool_decide_eq_false_2 by done.
    destruct (Z.leb_spec capacity (Z.of_nat (length d))) as [Hfull|Hroom].
    + destruct d as [|kv0 d']; [simpl in *; lia|].
      rewrite IH; simpl in *.
      * do 3 f_equal. rewrite <- app_assoc. simpl.
        rewrite !length_app. simpl.
        replace (S (length d' + S (length kvs)) - Z.to_nat capacity)
          with (S (length d' + S (length kvs) - Z.to_nat capacity)) by lia.
        done.
      * unfold keys in *. simpl in Hnd'.
        by apply NoDup_cons in Hnd' as [_ ?].
      * done.
      * rewrite length_app. simpl. lia.
    + rewrite IH; simpl.
      * by rewrite <- app_assoc.
      * done.
      * done.
      * rewrite length_app. simpl. lia.
Qed.

End filling.

(** X17. Putting entries with distinct keys, one after the other, into a
    newly constructed cache of capacity at least 1 leaves exactly the last
    [capacity] of them, in the order they were put. *)
Theorem distinct_puts_keep_most_recent {K : Type} `{EqDecision K}
    (capacity : Z) (kvs : list (K * value)) :
  (1 ≤ capacity)%Z → NoDup (keys kvs) →
  run_from (LRUCache_init capacity) (for_each kvs (λ kv, put kv.1 kv.2))
    = Ok (tt, mkLRUCache capacity
                (drop (length kvs - Z.to_nat capacity) kvs)).
Proof.
  intros Hcap Hnd. simpl.
  rewrite (puts_fill kvs [] capacity); [done | done | done | simpl; lia].
Qed.

Lemma distinct_puts_keep_most_recent_witness :
  run_from (LRUCache_init 2)
    (for_each [(1, VInt 10); (2, VInt 20); (3, VNone); (4, VInt 40)]%Z
       (λ kv, put kv.1 kv.2))
  = Ok (tt, mkLRUCache 2
              (drop (4 - Z.to_nat 2)
                 [(1, VInt 10); (2, VInt 20); (3, VNone); (4, VInt 40)]%Z)).
Proof.
  apply (distinct_puts_keep_most_recent 2
           [(1, VInt 10); (2, VInt 20); (3, VNone); (4, VInt 40)]%Z).
  - lia.
  - unfold keys. simpl. compute_done.
Defined.

(** X18. Two invalidations in a row remove what one invalidation with the
    disjunction of the two predicates removes; so invalidating twice with
    the same predicate is the same as once, and the order of two
    invalidations does not matter. *)
Theorem invalidations_compose {K : Type} `{EqDecision K}
    (p q : K → bool) (self : LRUCache K) :
  wf self →
  (invalidate p;; invalidate q) self = invalidate (λ k, p k || q k) self
  ∧ (invalidate p;; invalidate p) self = invalidate p self
  ∧ (invalidate p;; invalidate q) self = (invalidate q;; invalidate p) self.
Proof.
  intros Hwf.
  assert (Hcomp : ∀ (p q : K → bool),
    (invalidate p;; invalidate q) self = invalidate (λ k, p k || q k) self).
  { intros p0 q0. unfold mbind, prog_bind.
    rewrite (invalidate_spec (λ k, p0 k || q0 k) self) by done.
    rewrite (invalidate_spec p0 self) by done.
    rewrite invalidate_spec by (unfold wf; simpl; by apply keys_filter_NoDup).
    simpl. unfold survivors. rewrite filter_twice. do 3 f_equal.
    apply filter_ext. intros kv. by rewrite negb_orb. }
  split; [apply Hcomp|]. split.
  - rewrite Hcomp, !invalidate_spec by done. do 3 f_equal.
    unfold survivors. apply filter_ext. intros kv. by rewrite orb_diag.
  - rewrite !Hcomp, !invalidate_spec by done. do 3 f_equal.
    unfold survivors. apply filter_ext. intros kv. by rewrite orb_comm.
Qed.

Lemma invalidations_compose_witness :
  let self := mkLRUCache 5
                [((0, 2), VInt 6); ((3, 4), VInt 9); ((1, 3), VInt 9)]%Z in
  let p := λ key : Z * Z, (key.1 <=? 0)%Z && (0 <=? key.2)%Z in
  let q := λ key : Z * Z, (key.1 <=? 4)%Z && (4 <=? key.2)%Z in
  (invalidate p;; invalidate q) self = invalidate (λ k, p k || q k) self
  ∧ (invalidate p;; invalidate p) self = invalidate p self
  ∧ (invalidate p;; invalidate q) self = (invalidate q;; invalidate p) self.
Proof.
  intros self p q. apply (invalidations_compose p q self).
  unfold wf, keys. simpl. compute_done.
Defined.
